(** * scope-log: the namespace tree of [src/scopedLog.ts]

    A shallow embedding of the level resolver: the namespace parser
    [namespaceParts], the walk [findNearestNode], the lookup [shouldLog],
    the assignment [setLogLevel] and [reset].

    The TypeScript code keeps the tree as JavaScript objects that refer to
    one another and that are mutated in place ([nodes[0].nodeLevel = level],
    [currentNode.children.set(part, childNode)]).  The embedding therefore
    has an explicit store of node objects: a reference is a key of the
    store, a [children] map holds references, and every mutation is a write
    to the store, visible through every reference to the object. *)

From Stdlib Require Import Ascii String.
From stdpp Require Import gmap strings list fin_maps.

Local Open Scope string_scope.
Local Open Scope list_scope.

(** ** Severities *)

(** Modelled from the spec: the enum [LogLevel] is declared in
    [./types.js], which is not part of the sources at hand.  The spec gives
    the order OFF < ERROR < WARN < INFO < LOG < DEBUG; the numeric values
    below are the positions in that order. *)
Inductive LogLevel := OFF | ERROR | WARN | INFO | LOG | DEBUG.

Definition levelValue (l : LogLevel) : Z :=
  match l with
  | OFF => 0 | ERROR => 1 | WARN => 2 | INFO => 3 | LOG => 4 | DEBUG => 5
  end%Z.

(** [checkLevel <= level], the comparison of two enum members. *)
Definition level_le (checkLevel level : LogLevel) : bool :=
  (levelValue checkLevel <=? levelValue level)%Z.

Definition DEFAULT_ROOT_LEVEL : LogLevel := INFO.

(** ** Namespaces and strings *)

(** [string | RootNamespaceType]: the symbol [RootNamespace] or a string. *)
Inductive Namespace :=
  | RootNamespace
  | NsString (s : string).

Definition WILDCARD_NAMESPACE_TOKEN : string := "*".
Definition ROOT_NAMESPACE_KEY : string := "$".

(** [s.endsWith(suffix)]. *)
Definition endsWith (s suffix : string) : bool :=
  String.prefix (String.rev suffix) (String.rev s).

(** [s.includes(sub)]: [sub] occurs at some position of [s]. *)
Fixpoint includes (s sub : string) : bool :=
  String.prefix sub s ||
  match s with
  | EmptyString => false
  | String _ s' => includes s' sub
  end.

(** [s.split(d)] for a separator of one character: the pieces between the
    occurrences of [d]; the empty string gives one empty piece. *)
Fixpoint split (d : Ascii.ascii) (s : string) : list string :=
  match s with
  | EmptyString => [EmptyString]
  | String c s' =>
      if Ascii.eqb c d then EmptyString :: split d s'
      else match split d s' with
           | [] => [String c EmptyString]
           | p :: ps => String c p :: ps
           end
  end.

(** ** Errors *)

(** One constructor per [throw] of the source, carrying the namespace the
    message quotes.  [DanglingReference] is not thrown by the source: it is
    what the store model answers when a reference has no object, which a
    JavaScript reference cannot do; it is shown unreachable below. *)
Inductive Error :=
  | TrailingColon (namespace : string)
  | EmptySegments (namespace : string)
  | EmptyNamespace (namespace : string)
  | TrailingWildcard (namespace : string)
  | NoNamespacesFound
  | NoCascadingLevel
  | NamespaceShouldntExist
  | DanglingReference.

(** The errors of [namespaceParts]. *)
Definition isValidationError (e : Error) : bool :=
  match e with
  | TrailingColon _ | EmptySegments _ | EmptyNamespace _
  | TrailingWildcard _ => true
  | _ => false
  end.

Definition Res (A : Type) : Type := Error + A.

(** ** Parsing *)

(** [parts.pop()]. *)
Definition pop (parts : list string) : list string := removelast parts.

Definition namespaceParts (namespace : Namespace) (allowWildcard : bool)
  : Res (list string * bool) :=
  match namespace with
  | RootNamespace => inr ([], false)
  | NsString ns =>
      if String.eqb ns "" || String.eqb ns ROOT_NAMESPACE_KEY
      then inr ([], false)
      else if endsWith ns ":" then inl (TrailingColon ns)
      else if includes ns "::" then inl (EmptySegments ns)
      else
        let parts := split ":"%char ns in
        if (length parts =? 0)%nat then inl (EmptyNamespace ns)
        else
          let wild :=
            match last parts with
            | Some p => String.eqb p WILDCARD_NAMESPACE_TOKEN
            | None => false
            end in
          if wild && negb allowWildcard then inl (TrailingWildcard ns)
          else
            let parts := if wild then pop parts else parts in
            let isWildcard := wild in
            match parts with
            | [p] => if String.eqb p ROOT_NAMESPACE_KEY
                     then inr ([], isWildcard)
                     else inr (parts, isWildcard)
            | _ => inr (parts, isWildcard)
            end
  end.

(** ** The store of node objects *)

Definition ref := nat.

Record NamespaceNode := mkNode {
  namespacePart : string;
  children : gmap string ref;
  nodeLevel : option LogLevel;
  cascadingLevel : option LogLevel
}.

(** [heap]: the allocated node objects; [_namespaces]: the module variable
    of that name, a reference to the root node. *)
Record Store := mkStore {
  heap : gmap ref NamespaceNode;
  _namespaces : ref
}.

(** ** A state and error monad: a call ends in a value or in a thrown
    error, and leaves the store as it was when it ended. *)
Definition M (A : Type) : Type := Store -> Res A * Store.

Definition ret {A} (a : A) : M A := fun s => (inr a, s).
Definition throw {A} (e : Error) : M A := fun s => (inl e, s).
Definition bind {A B} (k : A -> M B) (m : M A) : M B :=
  fun s => match m s with
           | (inr a, s') => k a s'
           | (inl e, s') => (inl e, s')
           end.
Definition lift {A} (r : Res A) : M A := fun s => (r, s).

#[global] Instance M_ret : MRet M := @ret.
#[global] Instance M_bind : MBind M := @bind.

(** Reading the object behind a reference. *)
Definition deref (r : ref) : M NamespaceNode :=
  fun s => match heap s !! r with
           | Some n => (inr n, s)
           | None => (inl DanglingReference, s)
           end.

(** An object literal: a new object at an unused reference. *)
Definition alloc (n : NamespaceNode) : M ref :=
  fun s => let r := fresh (dom (heap s)) in
           (inr r, mkStore (<[r := n]> (heap s)) (_namespaces s)).

(** A write to a field of the object behind a reference. *)
Definition modify (r : ref) (f : NamespaceNode -> NamespaceNode) : M unit :=
  fun s => match heap s !! r with
           | Some n => (inr tt, mkStore (<[r := f n]> (heap s)) (_namespaces s))
           | None => (inl DanglingReference, s)
           end.

Definition getNamespaces : M ref := fun s => (inr (_namespaces s), s).
Definition setNamespaces (r : ref) : M unit :=
  fun s => (inr tt, mkStore (heap s) r).

Definition set_nodeLevel (l : option LogLevel) (n : NamespaceNode) :=
  mkNode (namespacePart n) (children n) l (cascadingLevel n).
Definition set_cascadingLevel (l : option LogLevel) (n : NamespaceNode) :=
  mkNode (namespacePart n) (children n) (nodeLevel n) l.
Definition set_child (part : string) (c : ref) (n : NamespaceNode) :=
  mkNode (namespacePart n) (<[part := c]> (children n))
         (nodeLevel n) (cascadingLevel n).

(** ** The operations *)

Definition createRootNode : M ref :=
  alloc (mkNode ROOT_NAMESPACE_KEY ∅ None (Some DEFAULT_ROOT_LEVEL)).

(** [let _namespaces = createRootNode()] at module load. *)
Definition initial : Store :=
  snd ((r ← createRootNode; setNamespaces r) (mkStore ∅ 0%nat)).

Definition reset : M unit :=
  r ← createRootNode; setNamespaces r.

(** The loop of [findNearestNode]: [visited] has the nearest node first;
    when [currentNode] has no child for [part] the parts from there on are
    returned ([namespaceParts.slice(i)]). *)
Fixpoint findLoop (currentNode : ref) (visited : list ref)
    (parts : list string) : M (list ref * list string) :=
  match parts with
  | [] => ret (visited, [])
  | part :: rest =>
      cur ← deref currentNode;
      match children cur !! part with
      | Some node => findLoop node (node :: visited) rest
      | None => ret (visited, part :: rest)
      end
  end.

Definition findNearestNode (parts : list string)
  : M (list ref * list string) :=
  currentNode ← getNamespaces;
  findLoop currentNode [currentNode] parts.

(** [for (const node of nodes)] of [shouldLog], with the [throw] that
    follows the loop. *)
Fixpoint cascadeScan (checkLevel : LogLevel) (nodes : list ref) : M bool :=
  match nodes with
  | [] => throw NoCascadingLevel
  | node :: rest =>
      n ← deref node;
      match cascadingLevel n with
      | Some level => ret (level_le checkLevel level)
      | None => cascadeScan checkLevel rest
      end
  end.

(** [a ?? b]. *)
Definition nullish {A} (a b : option A) : option A :=
  match a with Some x => Some x | None => b end.

Definition shouldLog (checkLevel : LogLevel) (namespace : Namespace)
  : M bool :=
  '(parts, _isWildcard) ← lift (namespaceParts namespace false);
  '(nodes, remaining) ← findNearestNode parts;
  match nodes with
  | [] => throw NoNamespacesFound
  | node0 :: _ =>
      exact ←
        (if (length remaining =? 0)%nat then
           n0 ← deref node0;
           ret (nullish (nodeLevel n0) (cascadingLevel n0))
         else ret None);
      match exact with
      | Some level => ret (level_le checkLevel level)
      | None => cascadeScan checkLevel nodes
      end
  end.

(** The assignment to one of the two level slots of a node. *)
Definition setLevel (isWildcard : bool) (level : LogLevel) (r : ref)
  : M unit :=
  if isWildcard then modify r (set_cascadingLevel (Some level))
  else modify r (set_nodeLevel (Some level)).

(** The loop of [setLogLevel] that adds the remaining parts below
    [currentNode]; [rest = []] is [i === remaining.length - 1]. *)
Fixpoint extendLoop (isWildcard : bool) (level : LogLevel)
    (currentNode : ref) (remaining : list string) : M unit :=
  match remaining with
  | [] => ret tt
  | part :: rest =>
      cur ← deref currentNode;
      if bool_decide (is_Some (children cur !! part))
      then throw NamespaceShouldntExist
      else
        childNode ← alloc (mkNode part ∅ None None);
        (match rest with
         | [] => setLevel isWildcard level childNode
         | _ => ret tt
         end);;
        modify currentNode (set_child part childNode);;
        extendLoop isWildcard level childNode rest
  end.

Definition setLogLevel (namespace : Namespace) (level : LogLevel)
  : M unit :=
  '(parts, isWildcard) ← lift (namespaceParts namespace true);
  '(nodes, remaining) ← findNearestNode parts;
  match nodes with
  | [] => throw NoNamespacesFound
  | node0 :: _ =>
      if (length remaining =? 0)%nat then setLevel isWildcard level node0
      else extendLoop isWildcard level node0 remaining
  end.

(** ** Calls and reachable states *)

Inductive Call :=
  | CallSetLogLevel (namespace : Namespace) (level : LogLevel)
  | CallShouldLog (checkLevel : LogLevel) (namespace : Namespace)
  | CallReset.

(** What a call answers: [shouldLog] a boolean, the others nothing. *)
Definition run (c : Call) : M (option bool) :=
  match c with
  | CallSetLogLevel ns l => setLogLevel ns l;; ret None
  | CallShouldLog l ns => b ← shouldLog l ns; ret (Some b)
  | CallReset => reset;; ret None
  end.

(** The store after a sequence of calls; a call that throws leaves the
    store as it is at the throw, and the caller goes on. *)
Definition runAll (cs : list Call) (s : Store) : Store :=
  foldl (fun s c => snd (run c s)) s cs.

Inductive reachable : Store -> Prop :=
  | reach_initial : reachable initial
  | reach_step s c : reachable s -> reachable (snd (run c s)).

(** The node a path of segments leads to from [r], if all of it exists. *)
Fixpoint nodeAt (h : gmap ref NamespaceNode) (r : ref)
    (path : list string) : option ref :=
  match path with
  | [] => Some r
  | part :: rest =>
      match h !! r with
      | Some n =>
          match children n !! part with
          | Some c => nodeAt h c rest
          | None => None
          end
      | None => None
      end
  end.

Definition nodeAtPath (s : Store) (path : list string) : option ref :=
  nodeAt (heap s) (_namespaces s) path.


(** ** Well-formed stores *)

(** Every reference held in a [children] map has an object. *)
Definition closed (h : gmap ref NamespaceNode) : Prop :=
  ∀ r n part c, h !! r = Some n → children n !! part = Some c →
                is_Some (h !! c).

(** The root object exists and its [cascadingLevel] is not null. *)
Definition rootCascading (s : Store) : Prop :=
  ∃ n, heap s !! _namespaces s = Some n ∧ is_Some (cascadingLevel n).

Definition wf (s : Store) : Prop := rootCascading s ∧ closed (heap s).

(** [p.includes(':')] is false. *)
Definition noDelimiter (p : string) : Prop := includes p ":" = false.

(** How a heap may change in a call: objects stay, keep their segment,
    keep the children they have, and a cascading level that is set stays
    set. *)
Definition heap_ext (h h' : gmap ref NamespaceNode) : Prop :=
  ∀ r n, h !! r = Some n →
    ∃ n', h' !! r = Some n' ∧
          namespacePart n' = namespacePart n ∧
          children n ⊆ children n' ∧
          (is_Some (cascadingLevel n) → is_Some (cascadingLevel n')).

(** ** Notions the proofs use *)

(** A relation between the store before a computation and the store
    after it that holds whatever the store before is. *)
Definition preserves (R : relation Store) {A} (m : M A) : Prop :=
  ∀ s, R s (snd (m s)).

(** The heap only grows, in the sense of [heap_ext]. *)
Definition grows (s s' : Store) : Prop := heap_ext (heap s) (heap s').

(** The heap only grows and [_namespaces] still refers to the same root. *)
Definition growsSameRoot (s s' : Store) : Prop :=
  heap_ext (heap s) (heap s') ∧ _namespaces s' = _namespaces s.

(** The child object of one iteration of the loop of [setLogLevel], as it
    is when it is linked into its parent. *)
Definition newChild (isWildcard : bool) (level : LogLevel) (part : string)
    (rest : list string) : NamespaceNode :=
  match rest with
  | [] => if isWildcard then mkNode part ∅ None (Some level)
          else mkNode part ∅ (Some level) None
  | _ => mkNode part ∅ None None
  end.

(** The store after one iteration of that loop from [currentNode], whose
    object is [n]. *)
Definition linked (isWildcard : bool) (level : LogLevel) (s : Store)
    (currentNode : ref) (n : NamespaceNode) (part : string)
    (rest : list string) : Store :=
  let c := fresh (dom (heap s)) in
  mkStore (<[currentNode := set_child part c n]>
             (<[c := newChild isWildcard level part rest]> (heap s)))
          (_namespaces s).

(** The level slot an assignment writes. *)
Definition slot (isWildcard : bool) (n : NamespaceNode) : option LogLevel :=
  if isWildcard then cascadingLevel n else nodeLevel n.

Definition setSlot (isWildcard : bool) (level : LogLevel)
    (n : NamespaceNode) : NamespaceNode :=
  if isWildcard then set_cascadingLevel (Some level) n
  else set_nodeLevel (Some level) n.

(** Every object of the heap has a segment that satisfies [P]. *)
Definition allSegments (P : string → Prop) (h : gmap ref NamespaceNode) :=
  map_Forall (λ _ n, P (namespacePart n)) h.

Definition keepsClosed (s s' : Store) : Prop :=
  closed (heap s) → closed (heap s').

Definition keepsSegments (P : string → Prop) (s s' : Store) : Prop :=
  allSegments P (heap s) → allSegments P (heap s').

(** The three invariant violations of the source. *)
Definition invariantViolation (e : Error) : bool :=
  match e with
  | NoNamespacesFound | NoCascadingLevel | NamespaceShouldntExist => true
  | _ => false
  end.

(** The last character of a string, if it has one. *)
Fixpoint lastChar (s : string) : option Ascii.ascii :=
  match s with
  | EmptyString => None
  | String c s' => match lastChar s' with
                   | Some d => Some d
                   | None => Some c
                   end
  end.

(** The first cascading level among [nodes], as the ancestor scan of
    [shouldLog] meets them. *)
Fixpoint scanLevel (h : gmap ref NamespaceNode) (nodes : list ref)
  : option LogLevel :=
  match nodes with
  | [] => None
  | node :: rest =>
      match h !! node with
      | Some n => nullish (cascadingLevel n) (scanLevel h rest)
      | None => None
      end
  end.

(** The level the tree gives a path, found in one pass from [r] down: the
    nearest cascading level met so far is carried along as [inherited];
    where the path leaves the tree the carried level is the answer, and at
    the node of the path its exact level comes first. *)
Fixpoint resolveFrom (h : gmap ref NamespaceNode) (r : ref)
    (inherited : option LogLevel) (path : list string) : option LogLevel :=
  match h !! r with
  | None => None
  | Some n =>
      let inherited' := nullish (cascadingLevel n) inherited in
      match path with
      | [] => nullish (nodeLevel n) inherited'
      | part :: rest =>
          match children n !! part with
          | Some c => resolveFrom h c inherited' rest
          | None => inherited'
          end
      end
  end.

Definition effectiveLevel (s : Store) (path : list string)
  : option LogLevel :=
  resolveFrom (heap s) (_namespaces s) None path.

(** A child object carries the key it is stored under as its segment. *)
Definition keyed (h : gmap ref NamespaceNode) : Prop :=
  ∀ r n part c cn, h !! r = Some n → children n !! part = Some c →
                   h !! c = Some cn → namespacePart cn = part.

(** No node is shared and no node lies below itself: two paths from the
    root that lead to one node are one path. *)
Definition treeShaped (s : Store) : Prop :=
  ∀ p q r, nodeAtPath s p = Some r → nodeAtPath s q = Some r → p = q.

Definition isTree (s : Store) : Prop :=
  closed (heap s) ∧ is_Some (heap s !! _namespaces s) ∧
  keyed (heap s) ∧ treeShaped s.

Definition keepsTree (s s' : Store) : Prop := isTree s → isTree s'.

(** The two level slots of a node. *)
Definition levelsOf (n : NamespaceNode) : option LogLevel * option LogLevel :=
  (nodeLevel n, cascadingLevel n).

(** The tree as a lookup sees it: the level slots of the node a path
    leads to, if the path has a node. *)
Definition levelsAt (s : Store) (path : list string)
  : option (option LogLevel * option LogLevel) :=
  match nodeAtPath s path with
  | Some r => levelsOf <$> heap s !! r
  | None => None
  end.

(** A pair of slots after an assignment to one of them. *)
Definition assignSlot (isWildcard : bool) (level : LogLevel)
    (slots : option LogLevel * option LogLevel)
  : option LogLevel * option LogLevel :=
  if isWildcard then (fst slots, Some level) else (Some level, snd slots).

(** What an assignment to [parts] makes of a view of the tree: the slot
    is written at [parts], the paths on the way to [parts] have a node
    (with both slots null where there was none), every other path is as
    it was. *)
Definition assignView (parts : list string) (isWildcard : bool)
    (level : LogLevel)
    (view : list string → option (option LogLevel * option LogLevel))
    (path : list string) : option (option LogLevel * option LogLevel) :=
  if decide (path = parts)
  then Some (assignSlot isWildcard level (default (None, None) (view path)))
  else if decide (path `prefix_of` parts)
       then Some (default (None, None) (view path))
       else view path.

(** The resolution of a path read off a view, from the path [above] down
    the parts [rest]. *)
Fixpoint viewResolve
    (view : list string → option (option LogLevel * option LogLevel))
    (above : list string) (inherited : option LogLevel)
    (rest : list string) : option LogLevel :=
  match view above with
  | None => None
  | Some (exact, cascading) =>
      let inherited' := nullish cascading inherited in
      match rest with
      | [] => nullish exact inherited'
      | part :: rest' =>
          match view (above ++ [part]) with
          | Some _ => viewResolve view (above ++ [part]) inherited' rest'
          | None => inherited'
          end
      end
  end.

(** Two stores that a lookup cannot tell apart. *)
Definition sameView (s1 s2 : Store) : Prop :=
  ∀ path, levelsAt s1 path = levelsAt s2 path.

(** ** The logger *)

(** Modelled from the spec: the type [Outputter] and the function
    [ConsoleOutputter] are declared in [./types.js] and
    [./console-outputter.js], which are not part of the sources at hand.
    The spec gives an outputter the interface
    [(level, message, ...args) -> void]; what a call of one does is left
    open, and a call is recorded as an [OutputCall]. *)
Inductive Outputter := ConsoleOutputter.

(** One call of an outputter, with the arguments it is given; [any] is
    the type of the values a logger is called with. *)
Record OutputCall (any : Type) := mkOutputCall {
  call_outputter : Outputter;
  call_level : LogLevel;
  call_message : option string;
  call_params : list any
}.
Arguments mkOutputCall {any}.

(** [let outputters: Outputter[] = [ConsoleOutputter]]; nothing in the
    file assigns to it. *)
Definition outputters : list Outputter := [ConsoleOutputter].

(** The value is the list of the calls made to the outputters, in the
    order they are made. *)
Definition logToOutputters {any : Type} (namespace : Namespace)
    (level : LogLevel) (message : option string)
    (optionalParams : list any) : M (list (OutputCall any)) :=
  b ← shouldLog level namespace;
  if b : bool
  then ret (map (λ outputter,
                   mkOutputCall outputter level message optionalParams)
                outputters)
  else ret [].

(** The members of the object [scopedLog] returns: the function itself
    and its five properties. *)
Inductive LoggerMethod :=
  | CallBase | CallError | CallWarn | CallInfo | CallLog | CallDebug.

Definition methodLevel (m : LoggerMethod) : LogLevel :=
  match m with
  | CallBase => LOG
  | CallError => ERROR
  | CallWarn => WARN
  | CallInfo => INFO
  | CallLog => LOG
  | CallDebug => DEBUG
  end.

(** [typeof namespace === 'symbol' ? undefined : `[${namespace}]`]. *)
Definition scopedLogMessage (namespace : Namespace) : option string :=
  match namespace with
  | RootNamespace => None
  | NsString ns => Some (String.append "[" (String.append ns "]"))
  end.

(** [scopedLog(namespace)] builds the logger and calls nothing; a call
    of its member [m] with [optionalParams] is
    [scopedLog namespace m optionalParams]. *)
Definition scopedLog {any : Type} (namespace : Namespace)
    (m : LoggerMethod) (optionalParams : list any)
  : M (list (OutputCall any)) :=
  logToOutputters namespace (methodLevel m) (scopedLogMessage namespace)
    optionalParams.

(** The calls a logger call makes when the level lets it through. *)
Definition emitted {any : Type} (namespace : Namespace) (m : LoggerMethod)
    (optionalParams : list any) (level : LogLevel)
  : list (OutputCall any) :=
  if level_le (methodLevel m) level
  then [mkOutputCall ConsoleOutputter (methodLevel m)
          (scopedLogMessage namespace) optionalParams]
  else [].

(** * Proofs *)

Ltac unfold_M :=
  unfold mbind, M_bind, bind, mret, M_ret, ret, throw, lift, deref, alloc,
    modify, getNamespaces, setNamespaces in *.

(** ** Strings *)

Lemma includes_colon_cons c p :
  includes (String c p) ":" = Ascii.eqb c ":" || includes p ":".
Proof.
  cbn [includes String.prefix].
  destruct (ascii_dec ":" c) as [<-|Hne].
  - destruct p; reflexivity.
  - destruct (Ascii.eqb_spec c ":") as [->|_]; [congruence|reflexivity].
Qed.

Lemma split_noDelimiter s : Forall noDelimiter (split ":" s).
Proof.
  induction s as [|c s IH]; cbn [split].
  - repeat constructor.
  - destruct (Ascii.eqb c ":") eqn:Hc.
    + constructor; [reflexivity|exact IH].
    + destruct (split ":" s) as [|p ps].
      * constructor; [|constructor].
        unfold noDelimiter. rewrite includes_colon_cons, Hc. reflexivity.
      * inversion IH as [|? ? Hp Hps]; subst. constructor; [|exact Hps].
        unfold noDelimiter in *. rewrite includes_colon_cons, Hc. exact Hp.
Qed.

Lemma split_nonempty d s : split d s ≠ [].
Proof.
  destruct s as [|c s]; cbn [split]; [discriminate|].
  destruct (Ascii.eqb c d); [discriminate|].
  destruct (split d s); discriminate.
Qed.

Lemma Forall_removelast {A} (P : A → Prop) (l : list A) :
  Forall P l → Forall P (removelast l).
Proof.
  induction 1 as [|x l Hx Hl IH]; cbn [removelast]; [constructor|].
  destruct l; [constructor|]. constructor; assumption.
Qed.

(** The segments [namespaceParts] returns never hold the delimiter. *)
Lemma namespaceParts_noDelimiter ns allow parts isWildcard :
  namespaceParts ns allow = inr (parts, isWildcard) →
  Forall noDelimiter parts.
Proof.
  unfold namespaceParts. destruct ns as [|ns]; [intros [= <- _]; constructor|].
  destruct (_ || _); [intros [= <- _]; constructor|].
  destruct (endsWith ns ":"); [discriminate|].
  destruct (includes ns "::"); [discriminate|].
  destruct (_ =? _)%nat; [discriminate|].
  pose proof (split_noDelimiter ns) as Hsp.
  set (wild := match last (split ":" ns) with Some p => _ | None => false end).
  destruct (wild && negb allow); [discriminate|].
  assert (Forall noDelimiter (if wild then pop (split ":" ns) else split ":" ns))
    as Hps by (destruct wild; [apply Forall_removelast|]; exact Hsp).
  destruct (if wild then _ else _) as [|p [|q ps]].
  - intros [= <- _]; constructor.
  - destruct (String.eqb p ROOT_NAMESPACE_KEY); intros [= <- _];
      [constructor|exact Hps].
  - intros [= <- _]; exact Hps.
Qed.

(** ** Relations between the store before and after a computation *)

Section Preserves.
Context (R : relation Store) `{!Reflexive R, !Transitive R}.

Lemma preserves_ret {A} (a : A) : preserves R (ret a).
Proof. intros s. reflexivity. Qed.

Lemma preserves_throw {A} e : preserves R (@throw A e).
Proof. intros s. reflexivity. Qed.

Lemma preserves_lift {A} (r : Res A) : preserves R (lift r).
Proof. intros s. reflexivity. Qed.

Lemma preserves_deref r : preserves R (deref r).
Proof. intros s. unfold deref. destruct (heap s !! r); reflexivity. Qed.

Lemma preserves_getNamespaces : preserves R getNamespaces.
Proof. intros s. reflexivity. Qed.

Lemma preserves_bind {A B} (m : M A) (k : A → M B) :
  preserves R m → (∀ a, preserves R (k a)) → preserves R (m ≫= k).
Proof.
  intros Hm Hk s. unfold mbind, M_bind, bind.
  specialize (Hm s). destruct (m s) as [[e|a] s']; cbn in *; [exact Hm|].
  etransitivity; [exact Hm|apply Hk].
Qed.
End Preserves.

Lemma heap_ext_refl h : heap_ext h h.
Proof. intros r n Hr. exists n. auto. Qed.

Lemma heap_ext_trans h1 h2 h3 :
  heap_ext h1 h2 → heap_ext h2 h3 → heap_ext h1 h3.
Proof.
  intros H12 H23 r n Hr.
  destruct (H12 r n Hr) as (n2 & Hr2 & Hp2 & Hc2 & Hl2).
  destruct (H23 r n2 Hr2) as (n3 & Hr3 & Hp3 & Hc3 & Hl3).
  exists n3. repeat split; [assumption|congruence| |auto].
  etransitivity; eassumption.
Qed.

#[local] Instance grows_refl : Reflexive grows.
Proof. intros s. apply heap_ext_refl. Qed.
#[local] Instance grows_trans : Transitive grows.
Proof. intros s1 s2 s3. apply heap_ext_trans. Qed.
#[local] Instance growsSameRoot_refl : Reflexive growsSameRoot.
Proof. intros s. split; [apply heap_ext_refl|reflexivity]. Qed.
#[local] Instance growsSameRoot_trans : Transitive growsSameRoot.
Proof.
  intros s1 s2 s3 [H12 E12] [H23 E23].
  split; [eapply heap_ext_trans; eassumption|congruence].
Qed.

Lemma fresh_not_allocated (h : gmap ref NamespaceNode) :
  h !! fresh (dom h) = None.
Proof. apply not_elem_of_dom, is_fresh. Qed.

Lemma heap_ext_alloc h n : heap_ext h (<[fresh (dom h) := n]> h).
Proof.
  intros r m Hr. exists m. rewrite lookup_insert_ne; [auto|].
  intros <-. rewrite fresh_not_allocated in Hr. discriminate.
Qed.

Lemma heap_ext_write h r n n' :
  h !! r = Some n →
  namespacePart n' = namespacePart n →
  children n ⊆ children n' →
  (is_Some (cascadingLevel n) → is_Some (cascadingLevel n')) →
  heap_ext h (<[r := n']> h).
Proof.
  intros Hr Hp Hc Hl r0 m Hr0. destruct (decide (r = r0)) as [<-|Hne].
  - exists n'. rewrite lookup_insert_eq. replace m with n by congruence. auto.
  - exists m. rewrite lookup_insert_ne by assumption. auto.
Qed.

Lemma growsSameRoot_alloc n : preserves growsSameRoot (alloc n).
Proof. intros s. split; [apply heap_ext_alloc|reflexivity]. Qed.

Lemma growsSameRoot_setLevel isWildcard level r :
  preserves growsSameRoot (setLevel isWildcard level r).
Proof.
  intros s. unfold setLevel, modify.
  destruct isWildcard; destruct (heap s !! r) as [n|] eqn:Hr; cbn;
    try reflexivity; (split; [|reflexivity]);
    eapply heap_ext_write; eauto; cbn; eauto.
Qed.

(** ** The extension loop of [setLogLevel] *)

Lemma extendLoop_dangling isWildcard level cur part rest s :
  heap s !! cur = None →
  extendLoop isWildcard level cur (part :: rest) s = (inl DanglingReference, s).
Proof. intros Hcur. cbn [extendLoop]. unfold_M. rewrite Hcur. reflexivity. Qed.

Lemma extendLoop_exists isWildcard level cur part rest s n c :
  heap s !! cur = Some n → children n !! part = Some c →
  extendLoop isWildcard level cur (part :: rest) s
  = (inl NamespaceShouldntExist, s).
Proof.
  intros Hcur Hc. cbn [extendLoop]. unfold_M. rewrite Hcur.
  rewrite bool_decide_eq_true_2 by (rewrite Hc; eauto). reflexivity.
Qed.

Lemma extendLoop_step isWildcard level cur part rest s n :
  heap s !! cur = Some n → children n !! part = None →
  extendLoop isWildcard level cur (part :: rest) s
  = extendLoop isWildcard level (fresh (dom (heap s))) rest
      (linked isWildcard level s cur n part rest).
Proof.
  intros Hcur Hpart. cbn [extendLoop]. unfold_M. rewrite Hcur.
  rewrite bool_decide_eq_false_2 by (rewrite Hpart; intros [? [=]]).
  assert (cur ≠ fresh (dom (heap s))) as Hne.
  { intros ->. rewrite fresh_not_allocated in Hcur. discriminate. }
  unfold linked, newChild, setLevel, modify.
  destruct rest as [|part' rest']; cbn.
  - destruct isWildcard; cbn; rewrite lookup_insert_eq; cbn;
      rewrite insert_insert_eq, lookup_insert_ne, Hcur by auto; reflexivity.
  - rewrite lookup_insert_ne, Hcur by auto. reflexivity.
Qed.

Lemma linked_grows isWildcard level s cur n part rest :
  heap s !! cur = Some n → children n !! part = None →
  growsSameRoot s (linked isWildcard level s cur n part rest).
Proof.
  intros Hcur Hpart. split; [|reflexivity]. cbn.
  eapply heap_ext_trans; [apply heap_ext_alloc|].
  eapply heap_ext_write; cbn; eauto.
  - rewrite lookup_insert_ne; [eassumption|].
    intros E. rewrite <- E, fresh_not_allocated in Hcur. discriminate.
  - apply insert_subseteq. assumption.
Qed.

Lemma extendLoop_grows isWildcard level remaining :
  ∀ cur, preserves growsSameRoot (extendLoop isWildcard level cur remaining).
Proof.
  induction remaining as [|part rest IH]; intros cur s; [reflexivity|].
  destruct (heap s !! cur) as [n|] eqn:Hcur.
  - destruct (children n !! part) as [c|] eqn:Hpart.
    + erewrite extendLoop_exists by eassumption. reflexivity.
    + erewrite extendLoop_step by eassumption.
      etransitivity; [eapply linked_grows; eassumption|apply IH].
  - rewrite extendLoop_dangling by assumption. reflexivity.
Qed.

(** ** Computations that only read *)

Lemma findLoop_readonly parts :
  ∀ cur visited, preserves eq (findLoop cur visited parts).
Proof.
  induction parts as [|part rest IH]; intros cur visited; cbn [findLoop].
  - apply preserves_ret; apply _.
  - apply preserves_bind; [apply _..|apply preserves_deref; apply _|].
    intros n. destruct (children n !! part); [apply IH|].
    apply preserves_ret; apply _.
Qed.

Lemma findNearestNode_readonly parts : preserves eq (findNearestNode parts).
Proof.
  apply preserves_bind; [apply _..|apply preserves_getNamespaces; apply _|].
  intros r. apply findLoop_readonly.
Qed.

Lemma cascadeScan_readonly checkLevel nodes :
  preserves eq (cascadeScan checkLevel nodes).
Proof.
  induction nodes as [|node rest IH]; cbn [cascadeScan].
  - apply preserves_throw; apply _.
  - apply preserves_bind; [apply _..|apply preserves_deref; apply _|].
    intros n. destruct (cascadingLevel n); [apply preserves_ret; apply _|].
    exact IH.
Qed.

(** [shouldLog] never writes to the store. *)
Lemma shouldLog_readonly checkLevel namespace :
  preserves eq (shouldLog checkLevel namespace).
Proof.
  unfold shouldLog.
  apply preserves_bind; [apply _..|apply preserves_lift; apply _|].
  intros [parts w].
  apply preserves_bind; [apply _..|apply findNearestNode_readonly|].
  intros [[|node0 nodes] remaining]; [apply preserves_throw; apply _|].
  apply preserves_bind; [apply _..| |].
  - destruct (_ =? _)%nat; [|apply preserves_ret; apply _].
    apply preserves_bind; [apply _..|apply preserves_deref; apply _|].
    intros n. apply preserves_ret; apply _.
  - intros [l|]; [apply preserves_ret; apply _|apply cascadeScan_readonly].
Qed.

(** [setLogLevel] only grows the heap and keeps the root. *)
Lemma setLogLevel_grows namespace level :
  preserves growsSameRoot (setLogLevel namespace level).
Proof.
  unfold setLogLevel.
  apply preserves_bind; [apply _..|apply preserves_lift; apply _|].
  intros [parts w].
  apply preserves_bind; [apply _..| |].
  - intros s. rewrite <- (findNearestNode_readonly parts s). reflexivity.
  - intros [[|node0 nodes] remaining]; [apply preserves_throw; apply _|].
    destruct (_ =? _)%nat;
      [apply growsSameRoot_setLevel|apply extendLoop_grows].
Qed.

Lemma reset_grows : preserves grows reset.
Proof. intros s. apply heap_ext_alloc. Qed.

Lemma run_grows c : preserves grows (run c).
Proof.
  intros s. destruct c as [ns l|l ns|]; cbn [run].
  - apply preserves_bind; [apply _..| |intros; apply preserves_ret; apply _].
    intros s0. apply setLogLevel_grows.
  - apply preserves_bind; [apply _..| |intros; apply preserves_ret; apply _].
    intros s0. rewrite <- (shouldLog_readonly l ns s0). reflexivity.
  - apply preserves_bind; [apply _..| |intros; apply preserves_ret; apply _].
    apply reset_grows.
Qed.

(** ** Paths and the walk *)

Lemma nodeAt_app h r p q :
  nodeAt h r (p ++ q) = nodeAt h r p ≫= λ m, nodeAt h m q.
Proof.
  revert r. induction p as [|part p IH]; intros r; cbn; [reflexivity|].
  destruct (h !! r) as [n|]; [|reflexivity].
  destruct (children n !! part); [apply IH|reflexivity].
Qed.

Lemma nodeAt_ext h h' p :
  heap_ext h h' → ∀ r t, nodeAt h r p = Some t → nodeAt h' r p = Some t.
Proof.
  intros Hext. induction p as [|part p IH]; intros r t; cbn; [auto|].
  destruct (h !! r) as [n|] eqn:Hr; [|discriminate].
  destruct (children n !! part) as [c|] eqn:Hc; [|discriminate].
  destruct (Hext r n Hr) as (n' & -> & _ & Hsub & _).
  rewrite (lookup_weaken _ _ _ _ Hc Hsub). apply IH.
Qed.

(** A path that exists is walked to its end: nothing remains and the
    node of the path is first in the visited list. *)
Lemma findLoop_found s parts :
  ∀ cur visited t, nodeAt (heap s) cur parts = Some t →
    ∃ nodes, findLoop cur (cur :: visited) parts s = (inr (t :: nodes, []), s).
Proof.
  induction parts as [|part rest IH]; intros cur visited t; cbn.
  - intros [= ->]. eauto.
  - unfold_M. destruct (heap s !! cur) as [n|]; [|discriminate].
    destruct (children n !! part) as [c|]; [|discriminate].
    apply IH.
Qed.

(** What the walk returns in a store whose references all have objects. *)
Lemma findLoop_spec s parts :
  closed (heap s) →
  ∀ cur visited, is_Some (heap s !! cur) →
    ∃ pre node0 nodes consumed remaining,
      findLoop cur (cur :: visited) parts s
        = (inr (node0 :: nodes, remaining), s) ∧
      node0 :: nodes = pre ++ cur :: visited ∧
      Forall (λ r, is_Some (heap s !! r)) pre ∧
      parts = consumed ++ remaining ∧
      nodeAt (heap s) cur consumed = Some node0 ∧
      ∃ n0, heap s !! node0 = Some n0 ∧
            ∀ part rest, remaining = part :: rest → children n0 !! part = None.
Proof.
  intros Hclosed. induction parts as [|part rest IH]; intros cur visited [n Hn].
  - exists [], cur, visited, [], []. cbn. repeat split; auto.
    exists n. split; [assumption|discriminate].
  - cbn [findLoop]. unfold_M. rewrite Hn.
    destruct (children n !! part) as [c|] eqn:Hc.
    + destruct (IH c (cur :: visited) (Hclosed _ _ _ _ Hn Hc))
        as (pre & node0 & nodes & consumed & remaining
            & Hrun & Hnodes & Hpre & Hparts & Hat & Hn0).
      exists (pre ++ [c]), node0, nodes, (part :: consumed), remaining.
      repeat split.
      * exact Hrun.
      * rewrite Hnodes, <- app_assoc. reflexivity.
      * apply Forall_app. split; [assumption|].
        constructor; [eapply Hclosed; eassumption|constructor].
      * cbn. congruence.
      * cbn. rewrite Hn, Hc. exact Hat.
      * exact Hn0.
    + exists [], cur, visited, [], (part :: rest). cbn. repeat split; auto.
      exists n. split; [assumption|]. intros ? ? [= <- <-]. assumption.
Qed.

Lemma cascadeScan_head checkLevel node rest s n level :
  heap s !! node = Some n → cascadingLevel n = Some level →
  cascadeScan checkLevel (node :: rest) s = (inr (level_le checkLevel level), s).
Proof.
  intros Hn Hl. cbn [cascadeScan]. unfold_M. rewrite Hn, Hl. reflexivity.
Qed.

(** The scan ends at the latest at a node that has a cascading level. *)
Lemma cascadeScan_returns checkLevel s pre node rest n :
  Forall (λ r, is_Some (heap s !! r)) pre →
  heap s !! node = Some n → is_Some (cascadingLevel n) →
  ∃ b, cascadeScan checkLevel (pre ++ node :: rest) s = (inr b, s).
Proof.
  intros Hpre Hn [level Hl]. induction Hpre as [|r pre [m Hm] _ IH]; cbn [app].
  - erewrite cascadeScan_head by eassumption. eauto.
  - cbn [cascadeScan]. unfold_M. rewrite Hm.
    destruct (cascadingLevel m); eauto.
Qed.

(** ** [shouldLog] *)

Lemma shouldLog_invalid checkLevel ns e s :
  namespaceParts ns false = inl e →
  shouldLog checkLevel ns s = (inl e, s).
Proof. intros Hp. unfold shouldLog. unfold_M. rewrite Hp. reflexivity. Qed.

(** In a well-formed store a lookup with a valid namespace returns. *)
Lemma shouldLog_returns checkLevel ns parts w s :
  wf s → namespaceParts ns false = inr (parts, w) →
  ∃ b, shouldLog checkLevel ns s = (inr b, s).
Proof.
  intros [(root & Hroot & Hlevel) Hclosed] Hp.
  destruct (findLoop_spec s parts Hclosed (_namespaces s) [] (mk_is_Some _ _ Hroot))
    as (pre & node0 & nodes & consumed & remaining
        & Hrun & Hnodes & Hpre & _ & _ & n0 & Hn0 & _).
  destruct (cascadeScan_returns checkLevel s pre _ [] root Hpre Hroot Hlevel)
    as [b Hscan].
  rewrite <- Hnodes in Hscan.
  unfold shouldLog, findNearestNode. unfold_M. rewrite Hp. cbn.
  rewrite Hrun. destruct (_ =? _)%nat; [|eauto].
  rewrite Hn0. destruct (nullish _ _); eauto.
Qed.

(** The answer for a namespace whose node exists and has a level. *)
Lemma shouldLog_at checkLevel ns parts w s t tn level :
  namespaceParts ns false = inr (parts, w) →
  nodeAtPath s parts = Some t → heap s !! t = Some tn →
  nullish (nodeLevel tn) (cascadingLevel tn) = Some level →
  shouldLog checkLevel ns s = (inr (level_le checkLevel level), s).
Proof.
  intros Hp Hat Ht Hl.
  destruct (findLoop_found s parts _ [] t Hat) as [nodes Hrun].
  unfold shouldLog, findNearestNode. unfold_M. rewrite Hp. cbn.
  rewrite Hrun. cbn. rewrite Ht, Hl. reflexivity.
Qed.

(** ** [setLogLevel] *)

(** Below a node that has no child for the first remaining part, the loop
    never finds an existing key: it returns, the whole remaining path
    exists afterwards, and its last node is a new object that carries the
    level. *)
Lemma extendLoop_spec isWildcard level rest :
  ∀ part cur s n,
    heap s !! cur = Some n → children n !! part = None →
    ∃ s' target,
      extendLoop isWildcard level cur (part :: rest) s = (inr tt, s') ∧
      nodeAt (heap s') cur (part :: rest) = Some target ∧
      heap s !! target = None ∧
      heap s' !! target
        = Some (newChild isWildcard level (default part (last rest)) []).
Proof.
  induction rest as [|part' rest IH]; intros part cur s n Hcur Hpart;
    rewrite (extendLoop_step _ _ _ _ _ _ _ Hcur Hpart);
    set (c := fresh (dom (heap s)));
    assert (cur ≠ c) as Hne
      by (intros E; rewrite E in Hcur; unfold c in Hcur;
          rewrite fresh_not_allocated in Hcur; discriminate).
  - exists (linked isWildcard level s cur n part []), c.
    repeat split.
    + cbn. rewrite lookup_insert_eq. cbn. rewrite lookup_insert_eq. reflexivity.
    + apply fresh_not_allocated.
    + cbn. rewrite lookup_insert_ne, lookup_insert_eq by auto. reflexivity.
  - set (s2 := linked isWildcard level s cur n part (part' :: rest)).
    assert (heap s2 !! c = Some (mkNode part ∅ None None)) as Hc.
    { cbn. rewrite lookup_insert_ne, lookup_insert_eq by auto. reflexivity. }
    destruct (IH part' c s2 _ Hc (lookup_empty _))
      as (s' & target & Hrun & Hat & Hnew & Htn).
    exists s', target. repeat split; try assumption.
    + pose proof (extendLoop_grows isWildcard level (part' :: rest) c s2) as Hg.
      rewrite Hrun in Hg. destruct Hg as [Hext _]. cbn [snd] in Hext.
      destruct (Hext cur (set_child part c n)) as (n' & Hn' & _ & Hsub & _).
      { cbn. apply lookup_insert_eq. }
      cbn [nodeAt] in *. rewrite Hn'.
      rewrite (lookup_weaken (children (set_child part c n)) _ part c);
        [exact Hat| |exact Hsub].
      cbn. apply lookup_insert_eq.
    + destruct (heap s !! target) as [m|] eqn:Hm; [|reflexivity].
      destruct (linked_grows isWildcard level s cur n part (part' :: rest)
                  Hcur Hpart) as [Hext _].
      destruct (Hext _ _ Hm) as (m' & Hm' & _). fold s2 in Hm'. congruence.
    + rewrite Htn, last_cons. destruct (last rest); reflexivity.
Qed.

Lemma setLogLevel_invalid ns level e s :
  namespaceParts ns true = inl e →
  setLogLevel ns level s = (inl e, s).
Proof. intros Hp. unfold setLogLevel. unfold_M. rewrite Hp. reflexivity. Qed.

(** The node of the namespace exists: its slot is written in place, and
    nothing else in the store changes. *)
Lemma setLogLevel_existing ns level parts isWildcard s t tn :
  namespaceParts ns true = inr (parts, isWildcard) →
  nodeAtPath s parts = Some t → heap s !! t = Some tn →
  setLogLevel ns level s
  = (inr tt, mkStore (<[t := setSlot isWildcard level tn]> (heap s))
                     (_namespaces s)).
Proof.
  intros Hp Hat Ht.
  destruct (findLoop_found s parts _ [] t Hat) as [nodes Hrun].
  unfold setLogLevel, findNearestNode. unfold_M. rewrite Hp. cbn.
  rewrite Hrun. cbn. unfold setLevel, setSlot, modify.
  destruct isWildcard; rewrite Ht; reflexivity.
Qed.

(** In a well-formed store an assignment with a valid namespace returns;
    afterwards the node of the namespace exists and its slot holds the
    level. *)
Lemma setLogLevel_spec ns level parts isWildcard s :
  wf s → namespaceParts ns true = inr (parts, isWildcard) →
  ∃ s' target tn,
    setLogLevel ns level s = (inr tt, s') ∧
    nodeAtPath s' parts = Some target ∧
    heap s' !! target = Some tn ∧
    slot isWildcard tn = Some level ∧
    (nodeAtPath s parts = None →
       heap s !! target = None ∧
       tn = newChild isWildcard level (namespacePart tn) []).
Proof.
  intros [(root & Hroot & Hlevel) Hclosed] Hp.
  destruct (findLoop_spec s parts Hclosed (_namespaces s) [] (mk_is_Some _ _ Hroot))
    as (pre & node0 & nodes & consumed & remaining
        & Hrun & _ & _ & Hparts & Hat & n0 & Hn0 & Hmiss).
  destruct remaining as [|part rest].
  - rewrite app_nil_r in Hparts. subst consumed.
    rewrite (setLogLevel_existing _ _ _ _ _ _ _ Hp Hat Hn0).
    eexists _, node0, _. repeat split.
    + unfold nodeAtPath. cbn. eapply nodeAt_ext; [|exact Hat].
      eapply heap_ext_write; [exact Hn0|..];
        destruct isWildcard; cbn; eauto.
    + cbn. apply lookup_insert_eq.
    + destruct isWildcard; reflexivity.
    + unfold nodeAtPath in *. rewrite Hat in *. discriminate.
    + unfold nodeAtPath in *. rewrite Hat in *. discriminate.
  - destruct (extendLoop_spec isWildcard level rest part node0 s n0 Hn0
                (Hmiss _ _ eq_refl))
      as (s' & target & Hext & Hat' & Hnew & Htn).
    exists s', target, (newChild isWildcard level (default part (last rest)) []).
    assert (setLogLevel ns level s = (inr tt, s')) as Hset.
    { unfold setLogLevel, findNearestNode. unfold_M. rewrite Hp. cbn.
      rewrite Hrun. cbn. exact Hext. }
    repeat split; try assumption.
    + pose proof (setLogLevel_grows ns level s) as [Hg Hr].
      rewrite Hset in Hg, Hr. cbn [snd] in Hg, Hr.
      unfold nodeAtPath. rewrite Hr, Hparts, nodeAt_app.
      rewrite (nodeAt_ext _ _ _ Hg _ _ Hat). exact Hat'.
    + destruct isWildcard; reflexivity.
    + destruct isWildcard; reflexivity.
Qed.

(** ** Invariants of the store *)

#[local] Instance keepsClosed_refl : Reflexive keepsClosed.
Proof. intros s H. exact H. Qed.
#[local] Instance keepsClosed_trans : Transitive keepsClosed.
Proof. intros s1 s2 s3 H12 H23 H. auto. Qed.
#[local] Instance keepsSegments_refl P : Reflexive (keepsSegments P).
Proof. intros s H. exact H. Qed.
#[local] Instance keepsSegments_trans P : Transitive (keepsSegments P).
Proof. intros s1 s2 s3 H12 H23 H. auto. Qed.

Lemma closed_insert h r n :
  closed h →
  (∀ part c, children n !! part = Some c → c = r ∨ is_Some (h !! c)) →
  closed (<[r := n]> h).
Proof.
  intros Hclosed Hn r0 m part c Hr0 Hc.
  rewrite lookup_insert_is_Some.
  destruct (decide (r = c)) as [|Hne]; [auto|right; split; [assumption|]].
  rewrite lookup_insert in Hr0. case_decide.
  - injection Hr0 as <-. destruct (Hn _ _ Hc); [congruence|assumption].
  - eapply Hclosed; eassumption.
Qed.

Lemma keepsClosed_setLevel isWildcard level r :
  preserves keepsClosed (setLevel isWildcard level r).
Proof.
  intros s Hclosed. unfold setLevel, modify.
  destruct isWildcard; destruct (heap s !! r) as [n|] eqn:Hr; cbn;
    try assumption; apply closed_insert; try assumption;
    cbn; intros part c Hc; right; eapply Hclosed; eassumption.
Qed.

Lemma linked_closed isWildcard level s cur n part rest :
  heap s !! cur = Some n →
  keepsClosed s (linked isWildcard level s cur n part rest).
Proof.
  intros Hcur Hclosed. cbn. apply closed_insert.
  - apply closed_insert; [assumption|].
    intros p c. unfold newChild.
    destruct rest; [destruct isWildcard|]; cbn; rewrite lookup_empty;
      discriminate.
  - cbn. intros p c. rewrite lookup_insert. case_decide.
    + intros [= <-]. right. rewrite lookup_insert_eq. eauto.
    + intros Hc. right. rewrite lookup_insert_is_Some'. right.
      eapply Hclosed; eassumption.
Qed.

Lemma extendLoop_closed isWildcard level remaining :
  ∀ cur, preserves keepsClosed (extendLoop isWildcard level cur remaining).
Proof.
  induction remaining as [|part rest IH]; intros cur s; [reflexivity|].
  destruct (heap s !! cur) as [n|] eqn:Hcur.
  - destruct (children n !! part) as [c|] eqn:Hpart.
    + erewrite extendLoop_exists by eassumption. reflexivity.
    + erewrite extendLoop_step by eassumption.
      etransitivity; [eapply linked_closed; eassumption|apply IH].
  - rewrite extendLoop_dangling by assumption. reflexivity.
Qed.

Lemma setLogLevel_closed namespace level :
  preserves keepsClosed (setLogLevel namespace level).
Proof.
  unfold setLogLevel.
  apply preserves_bind; [apply _..|apply preserves_lift; apply _|].
  intros [parts w].
  apply preserves_bind; [apply _..| |].
  - intros s. rewrite <- (findNearestNode_readonly parts s). reflexivity.
  - intros [[|node0 nodes] remaining]; [apply preserves_throw; apply _|].
    destruct (_ =? _)%nat;
      [apply keepsClosed_setLevel|apply extendLoop_closed].
Qed.

Lemma reset_wf s : closed (heap s) → wf (snd (reset s)).
Proof.
  intros Hclosed. unfold reset, createRootNode. unfold_M. cbn. split.
  - eexists. cbn. rewrite lookup_insert_eq. split; [reflexivity|]. cbn. eauto.
  - cbn. apply closed_insert; [assumption|].
    cbn. intros p c. rewrite lookup_empty. discriminate.
Qed.

Lemma initial_wf : wf initial.
Proof.
  apply (reset_wf (mkStore ∅ 0%nat)).
  intros r n p c Hr. cbn in Hr. rewrite lookup_empty in Hr. discriminate.
Qed.

Lemma setLogLevel_wf ns level s : wf s → wf (snd (setLogLevel ns level s)).
Proof.
  intros [(root & Hroot & Hlevel) Hclosed].
  destruct (setLogLevel_grows ns level s) as [Hext Hr].
  split; [|apply setLogLevel_closed; assumption].
  destruct (Hext _ _ Hroot) as (root' & Hroot' & _ & _ & Hlevel').
  exists root'. rewrite Hr. auto.
Qed.

Lemma run_snd c s :
  snd (run c s) = match c with
                  | CallSetLogLevel ns l => snd (setLogLevel ns l s)
                  | CallShouldLog l ns => s
                  | CallReset => snd (reset s)
                  end.
Proof.
  destruct c as [ns l|l ns|]; cbn [run]; unfold mbind, M_bind, bind.
  - destruct (setLogLevel ns l s) as [[e|[]] s']; reflexivity.
  - pose proof (shouldLog_readonly l ns s) as Hro.
    destruct (shouldLog l ns s) as [[e|b] s']; cbn in *; congruence.
  - reflexivity.
Qed.

Lemma run_wf c s : wf s → wf (snd (run c s)).
Proof.
  intros Hwf. rewrite run_snd. destruct c as [ns l|l ns|].
  - apply setLogLevel_wf, Hwf.
  - exact Hwf.
  - apply reset_wf, Hwf.
Qed.

Lemma reachable_wf s : reachable s → wf s.
Proof. induction 1; [apply initial_wf|apply run_wf; assumption]. Qed.

Lemma reachable_runAll cs : ∀ s, reachable s → reachable (runAll cs s).
Proof.
  induction cs as [|c cs IH]; intros s Hs; [exact Hs|].
  cbn. apply IH. constructor. exact Hs.
Qed.

Lemma keepsSegments_setLevel P isWildcard level r :
  preserves (keepsSegments P) (setLevel isWildcard level r).
Proof.
  intros s Hseg. unfold setLevel, modify.
  destruct isWildcard; destruct (heap s !! r) as [n|] eqn:Hr; cbn;
    try assumption; apply map_Forall_insert_2; try assumption;
    apply (Hseg _ _ Hr).
Qed.

Lemma linked_segments P isWildcard level s cur n part rest :
  heap s !! cur = Some n → P part →
  keepsSegments P s (linked isWildcard level s cur n part rest).
Proof.
  intros Hcur Hpart Hseg. cbn. apply map_Forall_insert_2.
  - apply (Hseg _ _ Hcur).
  - apply map_Forall_insert_2; [|assumption].
    unfold newChild. destruct rest; [destruct isWildcard|]; exact Hpart.
Qed.

Lemma extendLoop_segments P isWildcard level remaining :
  Forall P remaining →
  ∀ cur, preserves (keepsSegments P) (extendLoop isWildcard level cur remaining).
Proof.
  induction 1 as [|part rest Hpart Hrest IH]; intros cur s; [reflexivity|].
  destruct (heap s !! cur) as [n|] eqn:Hcur.
  - destruct (children n !! part) as [c|] eqn:Hc.
    + erewrite extendLoop_exists by eassumption. reflexivity.
    + erewrite extendLoop_step by eassumption.
      etransitivity; [eapply linked_segments; eassumption|apply IH].
  - rewrite extendLoop_dangling by assumption. reflexivity.
Qed.

(** The parts that remain after the walk are the end of the parts given. *)
Lemma findLoop_remaining s parts :
  ∀ cur visited nodes remaining s',
    findLoop cur visited parts s = (inr (nodes, remaining), s') →
    ∃ consumed, parts = consumed ++ remaining.
Proof.
  induction parts as [|part rest IH]; intros cur visited nodes remaining s';
    cbn [findLoop]; unfold_M.
  - intros [= _ <- _]. exists []. reflexivity.
  - destruct (heap s !! cur) as [n|]; [|discriminate].
    destruct (children n !! part) as [c|].
    + intros Hrun. destruct (IH _ _ _ _ _ Hrun) as [consumed ->].
      exists (part :: consumed). reflexivity.
    + intros [= _ <- _]. exists []. reflexivity.
Qed.

(** Every segment [setLogLevel] stores is free of the delimiter. *)
Lemma setLogLevel_segments ns level :
  preserves (keepsSegments noDelimiter) (setLogLevel ns level).
Proof.
  intros s Hseg. unfold setLogLevel. unfold mbind, M_bind, bind, lift.
  destruct (namespaceParts ns true) as [e|[parts w]] eqn:Hp; [exact Hseg|].
  apply namespaceParts_noDelimiter in Hp.
  pose proof (findNearestNode_readonly parts s) as Hro.
  destruct (findNearestNode parts s) as [[e|[nodes remaining]] s'] eqn:Hfind;
    cbn in Hro; subst s'; [exact Hseg|].
  destruct nodes as [|node0 nodes]; [exact Hseg|].
  destruct (_ =? _)%nat; [apply keepsSegments_setLevel; exact Hseg|].
  apply extendLoop_segments; [|exact Hseg].
  apply findLoop_remaining in Hfind as [consumed ->].
  apply Forall_app in Hp. tauto.
Qed.

Lemma reachable_segments s : reachable s → allSegments noDelimiter (heap s).
Proof.
  assert (∀ h : gmap ref NamespaceNode, allSegments noDelimiter h →
            allSegments noDelimiter
              (<[fresh (dom h) :=
                   mkNode ROOT_NAMESPACE_KEY ∅ None (Some DEFAULT_ROOT_LEVEL)]> h))
    as Hroot by (intros h Hh; apply map_Forall_insert_2; [reflexivity|exact Hh]).
  induction 1 as [|s c _ IH].
  - apply (Hroot ∅), map_Forall_empty.
  - rewrite run_snd. destruct c as [ns l|l ns|].
    + apply setLogLevel_segments, IH.
    + exact IH.
    + apply Hroot, IH.
Qed.

(** * The claims *)

(** C1. Exact levels do not inherit: on a fresh tree, after
    [setLogLevel("a:b", DEBUG)], [shouldLog(DEBUG, "a:b")] is true and
    [shouldLog(DEBUG, "a:b:c")] is false; for every severity the lookup
    of ["a:b"] answers from DEBUG and the lookup of ["a:b:c"] answers from
    the root default. *)
Theorem exact_level_not_inherited :
  ∃ s, setLogLevel (NsString "a:b") DEBUG initial = (inr tt, s) ∧
       fst (shouldLog DEBUG (NsString "a:b") s) = inr true ∧
       fst (shouldLog DEBUG (NsString "a:b:c") s) = inr false ∧
       ∀ checkLevel,
         fst (shouldLog checkLevel (NsString "a:b") s)
           = inr (level_le checkLevel DEBUG) ∧
         fst (shouldLog checkLevel (NsString "a:b:c") s)
           = inr (level_le checkLevel DEFAULT_ROOT_LEVEL).
Proof.
  eexists. split; [vm_compute; reflexivity|].
  split; [vm_compute; reflexivity|].
  split; [vm_compute; reflexivity|].
  intros []; split; vm_compute; reflexivity.
Qed.

(** The walk stops at the first part that has no node; the node reached
    so far is first in the visited list. *)
Lemma findLoop_stops s consumed part rest :
  ∀ cur visited t tn,
    nodeAt (heap s) cur consumed = Some t →
    heap s !! t = Some tn → children tn !! part = None →
    ∃ nodes, findLoop cur (cur :: visited) (consumed ++ part :: rest) s
             = (inr (t :: nodes, part :: rest), s).
Proof.
  induction consumed as [|p consumed IH]; intros cur visited t tn; cbn.
  - intros [= ->] Ht Hpart. unfold_M. rewrite Ht, Hpart. eauto.
  - unfold_M. destruct (heap s !! cur) as [n|]; [|discriminate].
    destruct (children n !! p) as [c|]; [|discriminate].
    apply IH.
Qed.

(** A namespace below an existing node that has a cascading level, with
    no node of its own on the way down, answers from that level, however
    many parts lie below the node. *)
Lemma shouldLog_inherits checkLevel ns consumed part rest w s t tn level :
  namespaceParts ns false = inr (consumed ++ part :: rest, w) →
  nodeAtPath s consumed = Some t → heap s !! t = Some tn →
  children tn !! part = None → cascadingLevel tn = Some level →
  shouldLog checkLevel ns s = (inr (level_le checkLevel level), s).
Proof.
  intros Hp Hat Ht Hpart Hl.
  destruct (findLoop_stops s consumed part rest _ [] t tn Hat Ht Hpart)
    as [nodes Hrun].
  unfold shouldLog, findNearestNode. unfold_M. rewrite Hp. cbn.
  rewrite Hrun. cbn. eapply cascadeScan_head; eassumption.
Qed.

(** C2. Cascading levels inherit: on a fresh tree, after
    [setLogLevel("a:*", DEBUG)], [shouldLog(DEBUG, "a")] and
    [shouldLog(DEBUG, "a:b:c")] are true; the call set the cascading slot
    of the node ["a"], and for every severity both lookups answer from
    DEBUG. *)
Theorem wildcard_level_inherited :
  ∃ s r n,
    setLogLevel (NsString "a:*") DEBUG initial = (inr tt, s) ∧
    nodeAtPath s ["a"] = Some r ∧ heap s !! r = Some n ∧
    cascadingLevel n = Some DEBUG ∧ nodeLevel n = None ∧
    fst (shouldLog DEBUG (NsString "a") s) = inr true ∧
    fst (shouldLog DEBUG (NsString "a:b:c") s) = inr true ∧
    ∀ checkLevel,
      fst (shouldLog checkLevel (NsString "a") s)
        = inr (level_le checkLevel DEBUG) ∧
      fst (shouldLog checkLevel (NsString "a:b:c") s)
        = inr (level_le checkLevel DEBUG).
Proof.
  eexists _, _, _. split; [vm_compute; reflexivity|].
  split; [vm_compute; reflexivity|].
  split; [vm_compute; reflexivity|].
  split; [reflexivity|]. split; [reflexivity|].
  split; [vm_compute; reflexivity|].
  split; [vm_compute; reflexivity|].
  intros []; split; vm_compute; reflexivity.
Qed.

(** The same at any depth: whatever parts follow ["a"], the lookup answers
    from the cascading level of ["a"]. *)
Lemma wildcard_level_inherited_at_any_depth checkLevel ns rest w :
  namespaceParts ns false = inr ("a" :: rest, w) →
  fst (shouldLog checkLevel ns
         (snd (setLogLevel (NsString "a:*") DEBUG initial)))
  = inr (level_le checkLevel DEBUG).
Proof.
  intros Hp.
  set (s := snd (setLogLevel (NsString "a:*") DEBUG initial)).
  assert (nodeAtPath s ["a"] = Some 1%nat) as Hat
    by (vm_compute; reflexivity).
  assert (heap s !! 1%nat = Some (mkNode "a" ∅ None (Some DEBUG))) as Ht
    by (vm_compute; reflexivity).
  destruct rest as [|part rest].
  - rewrite (shouldLog_at _ _ _ _ _ _ _ DEBUG Hp Hat Ht eq_refl).
    reflexivity.
  - rewrite (shouldLog_inherits _ _ ["a"] _ _ _ _ _ _ DEBUG Hp Hat Ht
               (lookup_empty _) eq_refl).
    reflexivity.
Qed.

(** C3. Override precedence: on a fresh tree, after
    [setLogLevel("a:*", ERROR)] and then [setLogLevel("a:b", DEBUG)],
    [shouldLog(DEBUG, "a:b")] is true and [shouldLog(DEBUG, "a:c")] is
    false; for every severity the sibling ["a:c"] answers from the ERROR
    cascading level of ["a"]. *)
Theorem exact_override_takes_precedence :
  ∃ s1 s2,
    setLogLevel (NsString "a:*") ERROR initial = (inr tt, s1) ∧
    setLogLevel (NsString "a:b") DEBUG s1 = (inr tt, s2) ∧
    fst (shouldLog DEBUG (NsString "a:b") s2) = inr true ∧
    fst (shouldLog DEBUG (NsString "a:c") s2) = inr false ∧
    ∀ checkLevel,
      fst (shouldLog checkLevel (NsString "a:b") s2)
        = inr (level_le checkLevel DEBUG) ∧
      fst (shouldLog checkLevel (NsString "a:c") s2)
        = inr (level_le checkLevel ERROR).
Proof.
  eexists _, _. split; [vm_compute; reflexivity|].
  split; [vm_compute; reflexivity|].
  split; [vm_compute; reflexivity|].
  split; [vm_compute; reflexivity|].
  intros []; split; vm_compute; reflexivity.
Qed.

(** The root object right after [createRootNode]. *)
Lemma reset_root s :
  heap (snd (reset s)) !! _namespaces (snd (reset s))
  = Some (mkNode ROOT_NAMESPACE_KEY ∅ None (Some DEFAULT_ROOT_LEVEL)).
Proof. unfold reset, createRootNode. unfold_M. cbn. apply lookup_insert_eq. Qed.

(** C4. Root cascading-level invariant: the root has the cascading level
    DEFAULT_ROOT_LEVEL at construction and after [reset]; a call never
    turns a cascading level that is set into null, in any store; after
    any sequence of calls the root object exists and its [cascadingLevel]
    is not null; and so the ancestor scan of [shouldLog], run over the
    nodes the walk visited, finds a cascading level and returns. *)
Theorem root_cascading_level_never_null cs :
  (∃ n, heap initial !! _namespaces initial = Some n ∧
        cascadingLevel n = Some DEFAULT_ROOT_LEVEL) ∧
  (∀ s, ∃ n, heap (snd (reset s)) !! _namespaces (snd (reset s)) = Some n ∧
             cascadingLevel n = Some DEFAULT_ROOT_LEVEL) ∧
  (∀ c s, grows s (snd (run c s))) ∧
  rootCascading (runAll cs initial) ∧
  ∀ parts checkLevel, ∃ nodes remaining b,
    findNearestNode parts (runAll cs initial)
      = (inr (nodes, remaining), runAll cs initial) ∧
    cascadeScan checkLevel nodes (runAll cs initial)
      = (inr b, runAll cs initial).
Proof.
  split; [eexists; split; [apply (reset_root (mkStore ∅ 0%nat))|reflexivity]|].
  split; [intros s; eexists; split; [apply reset_root|reflexivity]|].
  split; [intros c s0; apply run_grows|].
  set (s := runAll cs initial).
  assert (wf s) as Hwf
    by (apply reachable_wf, reachable_runAll; constructor).
  split; [apply Hwf|].
  intros parts checkLevel. destruct Hwf as [(root & Hroot & Hlevel) Hclosed].
  destruct (findLoop_spec s parts Hclosed (_namespaces s) []
              (mk_is_Some _ _ Hroot))
    as (pre & node0 & nodes & consumed & remaining
        & Hrun & Hnodes & Hpre & _).
  destruct (cascadeScan_returns checkLevel s pre _ [] root Hpre Hroot Hlevel)
    as [b Hscan].
  exists (node0 :: nodes), remaining, b.
  split; [exact Hrun|]. rewrite Hnodes. exact Hscan.
Qed.

Lemma namespaceParts_error ns allow e :
  namespaceParts ns allow = inl e → isValidationError e = true.
Proof.
  unfold namespaceParts. destruct ns as [|ns]; [discriminate|].
  destruct (_ || _); [discriminate|].
  destruct (endsWith ns ":"); [intros [= <-]; reflexivity|].
  destruct (includes ns "::"); [intros [= <-]; reflexivity|].
  destruct (_ =? _)%nat; [intros [= <-]; reflexivity|].
  set (wild := match last (split ":" ns) with Some p => _ | None => false end).
  destruct (wild && negb allow); [intros [= <-]; reflexivity|].
  destruct (if wild then _ else _) as [|p [|q ps]]; try discriminate.
  destruct (String.eqb p ROOT_NAMESPACE_KEY); discriminate.
Qed.

(** In a well-formed store a call returns or throws a validation error of
    the parser. *)
Lemma run_wf_result c s :
  wf s →
  match fst (run c s) with
  | inl e => isValidationError e = true
  | inr _ => True
  end.
Proof.
  intros Hwf. destruct c as [ns l|l ns|]; cbn [run]; unfold mbind, M_bind, bind.
  - destruct (namespaceParts ns true) as [e|[parts w]] eqn:Hp.
    + rewrite (setLogLevel_invalid _ _ _ _ Hp). cbn.
      eapply namespaceParts_error, Hp.
    + destruct (setLogLevel_spec ns l parts w s Hwf Hp)
        as (s' & _ & _ & -> & _). exact I.
  - destruct (namespaceParts ns false) as [e|[parts w]] eqn:Hp.
    + rewrite (shouldLog_invalid _ _ _ _ Hp). cbn.
      eapply namespaceParts_error, Hp.
    + destruct (shouldLog_returns l ns parts w s Hwf Hp) as [b ->]. exact I.
  - exact I.
Qed.

(** C5. The fatal branches are unreachable: after any sequence of calls,
    whatever the next call is, it returns or it throws one of the
    validation errors of [namespaceParts]; it never throws the error of
    the empty visited list, of the scan without a cascading level, or of
    the child key that exists already (nor does the store model ever meet
    a reference without an object). *)
Theorem fatal_branches_unreachable cs c :
  match fst (run c (runAll cs initial)) with
  | inl e => isValidationError e = true ∧ invariantViolation e = false ∧
             e ≠ DanglingReference
  | inr _ => True
  end.
Proof.
  pose proof (run_wf_result c (runAll cs initial)) as H.
  destruct (fst (run c (runAll cs initial))) as [e|]; [|exact I].
  assert (isValidationError e = true) as He
    by (apply H, reachable_wf, reachable_runAll; constructor).
  destruct e; try discriminate; auto.
Qed.

(** C6. Validation errors are raised before the tree is touched: in any
    store and for any level, [setLogLevel("a:", X)], [setLogLevel("a::b",
    X)] and [shouldLog(X, "a:*")] throw a validation error and the store
    after the call is the store before it. *)
Theorem validation_errors_leave_store s X :
  setLogLevel (NsString "a:") X s = (inl (TrailingColon "a:"), s) ∧
  setLogLevel (NsString "a::b") X s = (inl (EmptySegments "a::b"), s) ∧
  shouldLog X (NsString "a:*") s = (inl (TrailingWildcard "a:*"), s) ∧
  isValidationError (TrailingColon "a:") = true ∧
  isValidationError (EmptySegments "a::b") = true ∧
  isValidationError (TrailingWildcard "a:*") = true.
Proof. repeat split. Qed.

(** C7 as the claim states it fails: on a fresh tree the valid call
    [setLogLevel("*:a", DEBUG)] returns, and the node it creates for the
    first part has the wildcard token as its segment. *)
Lemma segment_can_be_wildcard_token :
  ∃ s r n,
    setLogLevel (NsString "*:a") DEBUG initial = (inr tt, s) ∧
    nodeAtPath s ["*"] = Some r ∧ r ≠ _namespaces s ∧
    heap s !! r = Some n ∧
    namespacePart n = WILDCARD_NAMESPACE_TOKEN.
Proof.
  eexists _, _, _. split; [vm_compute; reflexivity|].
  split; [vm_compute; reflexivity|].
  split; [vm_compute; discriminate|].
  split; [vm_compute; reflexivity|]. reflexivity.
Qed.

(** C7, amended. After any sequence of calls, no node of the tree has a
    segment that contains the delimiter [':']. *)
Theorem segments_never_contain_delimiter cs path r n :
  nodeAtPath (runAll cs initial) path = Some r →
  heap (runAll cs initial) !! r = Some n →
  includes (namespacePart n) ":" = false.
Proof.
  intros _ Hr.
  apply (reachable_segments (runAll cs initial)
           (reachable_runAll cs _ reach_initial) r n Hr).
Qed.

Lemma segments_never_contain_delimiter_witness :
  ∃ r n,
    nodeAtPath (runAll [CallSetLogLevel (NsString "a:b") WARN] initial)
      ["a"; "b"] = Some r ∧
    heap (runAll [CallSetLogLevel (NsString "a:b") WARN] initial) !! r
      = Some n ∧
    includes (namespacePart n) ":" = false.
Proof.
  exists 2%nat, (mkNode "b" ∅ (Some WARN) None).
  assert (nodeAtPath (runAll [CallSetLogLevel (NsString "a:b") WARN] initial)
            ["a"; "b"] = Some 2%nat) as Hat by (vm_compute; reflexivity).
  assert (heap (runAll [CallSetLogLevel (NsString "a:b") WARN] initial)
            !! 2%nat = Some (mkNode "b" ∅ (Some WARN) None)) as Hn
    by (vm_compute; reflexivity).
  split; [exact Hat|]. split; [exact Hn|].
  exact (segments_never_contain_delimiter _ _ _ _ Hat Hn).
Defined.

(** C8. Setting the same path twice: from any well-formed store, both
    calls of [setLogLevel("a:b", _)] return (no duplicate-key failure);
    the second call finds the node the first one left at ["a:b"] and
    writes its level into that same object: no object is added, every
    other object is what it was, the exact level of the node is the level
    of the second call, and a lookup of ["a:b"] answers from it.  With the
    same level twice (WARN and WARN in particular) the second call leaves
    the store exactly as it was. *)
Theorem repeated_setLogLevel_updates_in_place s level1 level2 :
  wf s →
  ∃ s1 s2 r n,
    setLogLevel (NsString "a:b") level1 s = (inr tt, s1) ∧
    setLogLevel (NsString "a:b") level2 s1 = (inr tt, s2) ∧
    nodeAtPath s1 ["a"; "b"] = Some r ∧
    nodeAtPath s2 ["a"; "b"] = Some r ∧
    dom (heap s2) = dom (heap s1) ∧
    (∀ r', r' ≠ r → heap s2 !! r' = heap s1 !! r') ∧
    heap s2 !! r = Some n ∧ nodeLevel n = Some level2 ∧
    (∀ checkLevel, shouldLog checkLevel (NsString "a:b") s2
                   = (inr (level_le checkLevel level2), s2)) ∧
    (level1 = level2 → s2 = s1).
Proof.
  intros Hwf.
  assert (∀ allow, namespaceParts (NsString "a:b") allow
                   = inr (["a"; "b"], false)) as Hp by (intros []; reflexivity).
  destruct (setLogLevel_spec _ level1 _ _ s Hwf (Hp true))
    as (s1 & r & n1 & Hset1 & Hat1 & Hn1 & Hslot1 & _).
  pose proof (setLogLevel_existing _ level2 _ _ s1 r n1 (Hp true) Hat1 Hn1)
    as Hset2.
  cbn [setSlot] in Hset2.
  eexists s1, _, r, (set_nodeLevel (Some level2) n1).
  split; [exact Hset1|]. split; [exact Hset2|]. split; [exact Hat1|].
  assert (nodeAtPath
            (mkStore (<[r := set_nodeLevel (Some level2) n1]> (heap s1))
                     (_namespaces s1)) ["a"; "b"] = Some r) as Hat2.
  { unfold nodeAtPath. cbn [heap _namespaces].
    eapply nodeAt_ext; [|exact Hat1].
    eapply heap_ext_write; [exact Hn1|..]; cbn; auto. }
  split; [exact Hat2|].
  split; [cbn; apply dom_insert_lookup_L; eauto|].
  split; [intros r' Hne; cbn; apply lookup_insert_ne; auto|].
  split; [cbn; apply lookup_insert_eq|]. split; [reflexivity|].
  split.
  - intros checkLevel.
    eapply shouldLog_at; [exact (Hp false)|exact Hat2| |].
    + cbn. apply lookup_insert_eq.
    + reflexivity.
  - intros <-. cbn [slot] in Hslot1.
    assert (set_nodeLevel (Some level1) n1 = n1) as ->
      by (destruct n1; unfold set_nodeLevel; cbn in *; congruence).
    rewrite insert_id by exact Hn1. destruct s1; reflexivity.
Qed.

Lemma repeated_setLogLevel_updates_in_place_witness :
  ∃ s1 s2 r n,
    setLogLevel (NsString "a:b") WARN initial = (inr tt, s1) ∧
    setLogLevel (NsString "a:b") WARN s1 = (inr tt, s2) ∧
    nodeAtPath s1 ["a"; "b"] = Some r ∧
    nodeAtPath s2 ["a"; "b"] = Some r ∧
    dom (heap s2) = dom (heap s1) ∧
    (∀ r', r' ≠ r → heap s2 !! r' = heap s1 !! r') ∧
    heap s2 !! r = Some n ∧ nodeLevel n = Some WARN ∧
    (∀ checkLevel, shouldLog checkLevel (NsString "a:b") s2
                   = (inr (level_le checkLevel WARN), s2)) ∧
    (WARN = WARN → s2 = s1).
Proof.
  exact (repeated_setLogLevel_updates_in_place initial WARN WARN initial_wf).
Defined.

(** A lookup in a store whose root is a node as [createRootNode] makes it
    sees only the root default. *)
Lemma shouldLog_fresh_root checkLevel ns s :
  heap s !! _namespaces s
    = Some (mkNode ROOT_NAMESPACE_KEY ∅ None (Some DEFAULT_ROOT_LEVEL)) →
  fst (shouldLog checkLevel ns s)
  = match namespaceParts ns false with
    | inl e => inl e
    | inr _ => inr (level_le checkLevel DEFAULT_ROOT_LEVEL)
    end.
Proof.
  intros Hroot. destruct (namespaceParts ns false) as [e|[parts w]] eqn:Hp.
  - rewrite (shouldLog_invalid _ _ _ _ Hp). reflexivity.
  - destruct parts as [|part rest].
    + erewrite shouldLog_at; [reflexivity|exact Hp|reflexivity|exact Hroot|].
      reflexivity.
    + erewrite (shouldLog_inherits _ _ [] part rest);
        [reflexivity|exact Hp|reflexivity|exact Hroot|apply lookup_empty|].
      reflexivity.
Qed.

(** C9. Reset restores defaults: whatever the store is (after any
    sequence of calls in particular), after [reset()] every lookup, for
    every severity and every namespace, valid or not, answers as it does
    on the freshly initialized tree. *)
Theorem reset_restores_defaults s checkLevel ns :
  fst (shouldLog checkLevel ns (snd (reset s)))
  = fst (shouldLog checkLevel ns initial).
Proof.
  rewrite !shouldLog_fresh_root; [reflexivity|..].
  - apply (reset_root (mkStore ∅ 0%nat)).
  - apply reset_root.
Qed.

(** C10. A leading delimiter is not rejected: [":a"] parses to the parts
    [""] and ["a"], in a lookup and in an assignment; on a fresh tree
    [setLogLevel(":a", level)] returns and creates a node for the first
    part whose segment is the empty string; and after any sequence of
    calls [setLogLevel(":a", level)] returns, and then [shouldLog] on
    [":a"] answers from the exact level of the node at that path instead
    of throwing. *)
Theorem leading_delimiter_is_accepted level :
  (∀ allow, namespaceParts (NsString ":a") allow = inr ([""; "a"], false)) ∧
  (∃ s r n, setLogLevel (NsString ":a") level initial = (inr tt, s) ∧
            nodeAtPath s [""] = Some r ∧
            heap initial !! r = None ∧
            heap s !! r = Some n ∧ namespacePart n = "") ∧
  ∀ cs, ∃ s r n,
    setLogLevel (NsString ":a") level (runAll cs initial) = (inr tt, s) ∧
    nodeAtPath s [""; "a"] = Some r ∧
    heap s !! r = Some n ∧ nodeLevel n = Some level ∧
    ∀ checkLevel, shouldLog checkLevel (NsString ":a") s
                  = (inr (level_le checkLevel level), s).
Proof.
  assert (∀ allow, namespaceParts (NsString ":a") allow
                   = inr ([""; "a"], false)) as Hp by (intros []; reflexivity).
  split; [exact Hp|]. split.
  - eexists _, 1%nat, _. split; [destruct level; vm_compute; reflexivity|].
    destruct level; repeat split; vm_compute; reflexivity.
  - intros cs.
    destruct (setLogLevel_spec _ level _ _ (runAll cs initial)
                (reachable_wf _ (reachable_runAll cs _ reach_initial))
                (Hp true))
      as (s & r & n & Hset & Hat & Hn & Hslot & _).
    exists s, r, n. repeat split; try assumption.
    intros checkLevel.
    eapply shouldLog_at; [exact (Hp false)|exact Hat|exact Hn|].
    cbn [slot] in Hslot. rewrite Hslot. reflexivity.
Qed.

(** * Further properties of the code *)

(** ** The parser *)

Lemma prefix_colon_rev_app s : ∀ acc,
  String.prefix ":" (String.rev_app s acc)
  = match lastChar s with
    | Some c => Ascii.eqb c ":"
    | None => String.prefix ":" acc
    end.
Proof.
  induction s as [|a s IH]; intros acc; cbn [String.rev_app lastChar];
    [reflexivity|].
  rewrite IH. destruct (lastChar s); [reflexivity|].
  cbn [String.prefix]. destruct (ascii_dec ":" a) as [<-|Hne].
  - destruct acc; reflexivity.
  - destruct (Ascii.eqb_spec a ":") as [->|_]; [congruence|reflexivity].
Qed.

Lemma endsWith_colon s :
  endsWith s ":"
  = match lastChar s with Some c => Ascii.eqb c ":" | None => false end.
Proof.
  unfold endsWith, String.rev. cbn [String.rev_app].
  rewrite prefix_colon_rev_app. destruct (lastChar s); reflexivity.
Qed.

Lemma includes_double_colon_cons c s :
  includes (String c s) "::" = false →
  includes s "::" = false ∧
  (Ascii.eqb c ":" = true → String.prefix ":" s = false).
Proof.
  cbn [includes]. intros [Hpre Hs]%orb_false_iff. split; [exact Hs|].
  intros ->%Ascii.eqb_eq. cbn [String.prefix] in Hpre.
  destruct (ascii_dec ":" ":"); [exact Hpre|congruence].
Qed.

(** Without a doubled and without a trailing delimiter, [split] gives an
    empty piece at most in first position. *)
Lemma split_tail_nonempty s :
  includes s "::" = false → endsWith s ":" = false →
  Forall (λ p, p ≠ "") (tail (split ":" s)).
Proof.
  rewrite endsWith_colon.
  induction s as [|c s IH]; cbn [split lastChar]; [constructor|].
  intros [Hs Hc]%includes_double_colon_cons Hlast.
  assert (s ≠ "" → Forall (λ p, p ≠ "") (tail (split ":" s))) as IH'.
  { intros Hne. apply IH; [exact Hs|].
    destruct (lastChar s) eqn:El; [exact Hlast|reflexivity]. }
  destruct (Ascii.eqb c ":") eqn:Ec; cbn [tail].
  - destruct s as [|d s]; [cbn in Hlast; congruence|].
    specialize (Hc eq_refl). cbn [String.prefix] in Hc.
    assert (Ascii.eqb d ":" = false) as Ed.
    { destruct (Ascii.eqb_spec d ":") as [->|]; [|reflexivity].
      destruct (ascii_dec ":" ":"); [|congruence].
      destruct s; discriminate. }
    specialize (IH' ltac:(discriminate)).
    cbn [split] in *. rewrite Ed in *.
    destruct (split ":" s); cbn [tail] in *; constructor;
      try discriminate; try constructor; exact IH'.
  - destruct s as [|d s]; [constructor|].
    specialize (IH' ltac:(discriminate)).
    destruct (split ":" (String d s)); [constructor|exact IH'].
Qed.

Lemma tail_removelast {A} (l : list A) :
  tail (removelast l) = removelast (tail l).
Proof. destruct l as [|x [|y l]]; reflexivity. Qed.

(** How the two modes of the parser relate, for a string. *)
Lemma namespaceParts_modes ns :
  namespaceParts (NsString ns) false
  = match namespaceParts (NsString ns) true with
    | inr (_, true) => inl (TrailingWildcard ns)
    | r => r
    end.
Proof.
  unfold namespaceParts.
  destruct (_ || _); [reflexivity|].
  destruct (endsWith ns ":"); [reflexivity|].
  destruct (includes ns "::"); [reflexivity|].
  destruct (_ =? _)%nat; [reflexivity|].
  destruct (match last (split ":" ns) with Some p => _ | None => false end);
    cbn [andb negb].
  - destruct (pop (split ":" ns)) as [|p [|q ps]]; try reflexivity.
    destruct (String.eqb p ROOT_NAMESPACE_KEY); reflexivity.
  - destruct (split ":" ns) as [|p [|q ps]]; try reflexivity.
    destruct (String.eqb p ROOT_NAMESPACE_KEY); reflexivity.
Qed.

(** A namespace that a lookup accepts is accepted by an assignment, with
    the same parts and as an exact namespace. *)
Lemma namespaceParts_lookup_assign ns parts w :
  namespaceParts ns false = inr (parts, w) →
  w = false ∧ namespaceParts ns true = inr (parts, false).
Proof.
  destruct ns as [|ns]; [intros [= <- <-]; split; reflexivity|].
  rewrite namespaceParts_modes.
  destruct (namespaceParts (NsString ns) true) as [e|[parts' [|]]];
    [discriminate..|].
  intros [= <- <-]. split; reflexivity.
Qed.

(** X1. A lookup parses its namespace as an assignment does, except that
    it throws where the assignment finds a trailing wildcard: the lookup
    rejects exactly the wildcard namespaces on top of what the assignment
    rejects, and never returns the wildcard flag. *)
Theorem lookup_parses_as_assignment_without_wildcard ns :
  namespaceParts (NsString ns) false
  = match namespaceParts (NsString ns) true with
    | inr (_, true) => inl (TrailingWildcard ns)
    | r => r
    end.
Proof. apply namespaceParts_modes. Qed.

Lemma namespaceParts_shape ns allow parts w :
  namespaceParts ns allow = inr (parts, w) →
  Forall (λ p, p ≠ "") (tail parts) ∧
  parts ≠ [ROOT_NAMESPACE_KEY] ∧
  (w = false → last parts ≠ Some WILDCARD_NAMESPACE_TOKEN).
Proof.
  unfold namespaceParts.
  destruct ns as [|ns]; [intros [= <- <-]; repeat split; [constructor|discriminate..]|].
  destruct (_ || _); [intros [= <- <-]; repeat split; [constructor|discriminate..]|].
  destruct (endsWith ns ":") eqn:He; [discriminate|].
  destruct (includes ns "::") eqn:Hi; [discriminate|].
  destruct (_ =? _)%nat; [discriminate|].
  pose proof (split_tail_nonempty ns Hi He) as Htl.
  destruct (last (split ":" ns)) as [lp|] eqn:Hlast.
  2:{ apply last_None in Hlast. destruct (split_nonempty _ _ Hlast). }
  destruct (String.eqb lp WILDCARD_NAMESPACE_TOKEN) eqn:Hw.
  - destruct allow; [|discriminate]. cbn [andb negb].
    assert (Forall (λ p, p ≠ "") (tail (pop (split ":" ns)))) as Hpop
      by (unfold pop; rewrite tail_removelast; apply Forall_removelast, Htl).
    destruct (pop (split ":" ns)) as [|p [|q ps]].
    + intros [= <- <-]. repeat split; [constructor|discriminate..].
    + destruct (String.eqb_spec p ROOT_NAMESPACE_KEY) as [->|Hne];
        intros [= <- <-]; repeat split; try constructor; try discriminate.
      intros [= ->]. congruence.
    + intros [= <- <-]. repeat split; [exact Hpop|discriminate..].
  - cbn [andb].
    assert (last (split ":" ns) ≠ Some WILDCARD_NAMESPACE_TOKEN) as Hl.
    { rewrite Hlast. intros [= ->]. discriminate. }
    destruct (split ":" ns) as [|p [|q ps]].
    + intros [= <- <-]. repeat split; [constructor|discriminate..].
    + destruct (String.eqb_spec p ROOT_NAMESPACE_KEY) as [->|Hne];
        intros [= <- <-]; repeat split; try constructor; try discriminate;
        try (intros _; exact Hl).
      intros [= ->]. congruence.
    + intros [= <- <-]. repeat split; [exact Htl|discriminate|].
      intros _; exact Hl.
Qed.

(** X2. The shape of what the parser returns: no part holds the
    delimiter, no part but the first is empty, the parts are never the
    root key alone, and parts returned without the wildcard flag do not
    end with the wildcard token. *)
Theorem parsed_parts_are_segments ns allow parts w :
  namespaceParts ns allow = inr (parts, w) →
  Forall (λ p, includes p ":" = false) parts ∧
  Forall (λ p, p ≠ "") (tail parts) ∧
  parts ≠ [ROOT_NAMESPACE_KEY] ∧
  (w = false → last parts ≠ Some WILDCARD_NAMESPACE_TOKEN).
Proof.
  intros Hp. split; [exact (namespaceParts_noDelimiter _ _ _ _ Hp)|].
  exact (namespaceParts_shape _ _ _ _ Hp).
Qed.

Lemma parsed_parts_are_segments_witness :
  Forall (λ p, includes p ":" = false) [""; "a"; "*"; "b"] ∧
  Forall (λ p, p ≠ "") (tail [""; "a"; "*"; "b"]) ∧
  [""; "a"; "*"; "b"] ≠ [ROOT_NAMESPACE_KEY] ∧
  (true = false → last [""; "a"; "*"; "b"] ≠ Some WILDCARD_NAMESPACE_TOKEN).
Proof.
  apply (parsed_parts_are_segments (NsString ":a:*:b:*") true).
  reflexivity.
Defined.

(** ** The lookup as a resolution from the root down *)

Lemma cascadeScan_scanLevel checkLevel s nodes :
  Forall (λ r, is_Some (heap s !! r)) nodes →
  cascadeScan checkLevel nodes s
  = (match scanLevel (heap s) nodes with
     | Some level => inr (level_le checkLevel level)
     | None => inl NoCascadingLevel
     end, s).
Proof.
  induction 1 as [|node rest [n Hn] _ IH]; [reflexivity|].
  cbn [cascadeScan scanLevel]. unfold_M. rewrite Hn.
  destruct (cascadingLevel n); [reflexivity|exact IH].
Qed.

(** What [shouldLog] does with the result of the walk. *)
Lemma shouldLog_walk checkLevel ns parts w s nodes remaining :
  namespaceParts ns false = inr (parts, w) →
  findLoop (_namespaces s) [_namespaces s] parts s
    = (inr (nodes, remaining), s) →
  shouldLog checkLevel ns s
  = match nodes with
    | [] => (inl NoNamespacesFound, s)
    | node0 :: _ =>
        match remaining, heap s !! node0 with
        | [], None => (inl DanglingReference, s)
        | [], Some n0 =>
            match nullish (nodeLevel n0) (cascadingLevel n0) with
            | Some level => (inr (level_le checkLevel level), s)
            | None => cascadeScan checkLevel nodes s
            end
        | _ :: _, _ => cascadeScan checkLevel nodes s
        end
    end.
Proof.
  intros Hp Hrun. unfold shouldLog, findNearestNode. unfold_M.
  rewrite Hp. cbn. rewrite Hrun. destruct nodes as [|node0 nodes]; [reflexivity|].
  destruct remaining; cbn; [|reflexivity].
  destruct (heap s !! node0) as [n0|]; [|reflexivity].
  destruct (nullish _ _); reflexivity.
Qed.

(** The walk followed by the exact test and the scan computes what the
    pass from the root down computes. *)
Lemma findLoop_resolveFrom s parts :
  closed (heap s) →
  ∀ cur visited,
    is_Some (heap s !! cur) →
    Forall (λ r, is_Some (heap s !! r)) visited →
    ∃ node0 nodes remaining n0,
      findLoop cur (cur :: visited) parts s
        = (inr (node0 :: nodes, remaining), s) ∧
      Forall (λ r, is_Some (heap s !! r)) (node0 :: nodes) ∧
      heap s !! node0 = Some n0 ∧
      resolveFrom (heap s) cur (scanLevel (heap s) visited) parts
      = match remaining with
        | [] => match nullish (nodeLevel n0) (cascadingLevel n0) with
                | Some level => Some level
                | None => scanLevel (heap s) (node0 :: nodes)
                end
        | _ :: _ => scanLevel (heap s) (node0 :: nodes)
        end.
Proof.
  intros Hclosed. induction parts as [|part rest IH];
    intros cur visited [n Hn] Hvis.
  - exists cur, visited, [], n. cbn. rewrite Hn.
    repeat split; [constructor; eauto|].
    destruct (nodeLevel n); [reflexivity|]. cbn.
    destruct (cascadingLevel n); reflexivity.
  - cbn [findLoop resolveFrom]. unfold_M. rewrite Hn.
    destruct (children n !! part) as [c|] eqn:Hc.
    + destruct (IH c (cur :: visited) (Hclosed _ _ _ _ Hn Hc))
        as (node0 & nodes & remaining & n0 & Hrun & Hall & Hn0 & Hres).
      { constructor; eauto. }
      exists node0, nodes, remaining, n0.
      repeat split; try assumption.
      rewrite <- Hres. cbn [scanLevel]. rewrite Hn. reflexivity.
    + exists cur, visited, (part :: rest), n.
      repeat split; [constructor; eauto|assumption|].
      cbn [scanLevel]. rewrite Hn. reflexivity.
Qed.

Lemma shouldLog_effectiveLevel checkLevel ns parts w s :
  closed (heap s) → is_Some (heap s !! _namespaces s) →
  namespaceParts ns false = inr (parts, w) →
  shouldLog checkLevel ns s
  = (match effectiveLevel s parts with
     | Some level => inr (level_le checkLevel level)
     | None => inl NoCascadingLevel
     end, s).
Proof.
  intros Hclosed Hroot Hp.
  destruct (findLoop_resolveFrom s parts Hclosed (_namespaces s) [] Hroot)
    as (node0 & nodes & remaining & n0 & Hrun & Hall & Hn0 & Hres);
    [constructor|].
  rewrite (shouldLog_walk _ _ _ _ _ _ _ Hp Hrun).
  unfold effectiveLevel.
  change (scanLevel (heap s) []) with (@None LogLevel) in Hres. rewrite Hres.
  destruct remaining.
  - rewrite Hn0. destruct (nullish _ _); [reflexivity|].
    apply cascadeScan_scanLevel, Hall.
  - apply cascadeScan_scanLevel, Hall.
Qed.

Lemma wf_effectiveLevel ns parts w s :
  wf s → namespaceParts ns false = inr (parts, w) →
  ∃ level, effectiveLevel s parts = Some level.
Proof.
  intros Hwf Hp.
  destruct (shouldLog_returns OFF ns parts w s Hwf Hp) as [b Hb].
  destruct Hwf as [(root & Hroot & _) Hclosed].
  rewrite (shouldLog_effectiveLevel OFF ns parts w s Hclosed
             (mk_is_Some _ _ Hroot) Hp) in Hb.
  destruct (effectiveLevel s parts); [eauto|discriminate].
Qed.

(** X3. The lookup is the resolution from the root down: in a
    well-formed store, for a valid namespace, the walk to the nearest
    node followed by the scan back up the visited nodes finds the level
    that one pass down the path finds (the nearest cascading level on the
    way, or the exact level of the node of the path), and [shouldLog]
    compares the severity with that level. *)
Theorem shouldLog_resolves_top_down checkLevel ns parts w s :
  wf s → namespaceParts ns false = inr (parts, w) →
  ∃ level, effectiveLevel s parts = Some level ∧
           shouldLog checkLevel ns s = (inr (level_le checkLevel level), s).
Proof.
  intros Hwf Hp. destruct (wf_effectiveLevel ns parts w s Hwf Hp) as [lv Hlv].
  exists lv. split; [exact Hlv|].
  destruct Hwf as [(root & Hroot & _) Hclosed].
  rewrite (shouldLog_effectiveLevel checkLevel ns parts w s Hclosed
             (mk_is_Some _ _ Hroot) Hp), Hlv.
  reflexivity.
Qed.

Lemma shouldLog_resolves_top_down_witness :
  ∃ level, effectiveLevel initial ["a"; "b"] = Some level ∧
           shouldLog WARN (NsString "a:b") initial
           = (inr (level_le WARN level), initial).
Proof.
  exact (shouldLog_resolves_top_down WARN (NsString "a:b") ["a"; "b"] false
           initial initial_wf eq_refl).
Defined.

Lemma level_le_trans l1 l2 l3 :
  level_le l1 l2 = true → level_le l2 l3 = true → level_le l1 l3 = true.
Proof. unfold level_le. rewrite !Z.leb_le. lia. Qed.

(** X4. A more severe message passes wherever a less severe one does:
    in a well-formed store, if [shouldLog] accepts a severity for a
    namespace, it accepts every severity that is at most that one. *)
Theorem shouldLog_monotone checkLevel checkLevel' ns s :
  wf s → level_le checkLevel' checkLevel = true →
  fst (shouldLog checkLevel ns s) = inr true →
  fst (shouldLog checkLevel' ns s) = inr true.
Proof.
  intros Hwf Hle. destruct (namespaceParts ns false) as [e|[parts w]] eqn:Hp.
  - rewrite !(shouldLog_invalid _ _ _ _ Hp). discriminate.
  - destruct (wf_effectiveLevel ns parts w s Hwf Hp) as [lv Hlv].
    destruct Hwf as [(root & Hroot & _) Hclosed].
    rewrite !(shouldLog_effectiveLevel _ ns parts w s Hclosed
               (mk_is_Some _ _ Hroot) Hp), Hlv. cbn.
    intros [= H]. f_equal. eapply level_le_trans; eassumption.
Qed.

Lemma shouldLog_monotone_witness :
  fst (shouldLog ERROR (NsString "a:b") initial) = inr true.
Proof.
  apply (shouldLog_monotone INFO ERROR (NsString "a:b") initial initial_wf);
    reflexivity.
Defined.

(** ** Assignments followed by lookups *)

Lemma namespaceParts_assign_lookup ns parts :
  namespaceParts ns true = inr (parts, false) →
  namespaceParts ns false = inr (parts, false).
Proof.
  destruct ns as [|ns]; [intros [= <-]; reflexivity|].
  rewrite namespaceParts_modes. intros ->. reflexivity.
Qed.

(** Writing a slot of an existing node leaves every path where it is. *)
Lemma nodeAt_setSlot s r n isWildcard level path t :
  heap s !! r = Some n →
  nodeAtPath s path = Some t →
  nodeAtPath (mkStore (<[r := setSlot isWildcard level n]> (heap s))
                      (_namespaces s)) path = Some t.
Proof.
  intros Hr Hat. unfold nodeAtPath. cbn [heap _namespaces].
  eapply nodeAt_ext; [|exact Hat].
  eapply heap_ext_write; [exact Hr|..]; destruct isWildcard; cbn; eauto.
Qed.

(** Two assignments to the same path, each to either slot. *)
Lemma setLogLevel_twice ns1 ns2 parts w1 w2 level1 level2 s :
  wf s →
  namespaceParts ns1 true = inr (parts, w1) →
  namespaceParts ns2 true = inr (parts, w2) →
  ∃ s1 r n1,
    setLogLevel ns1 level1 s = (inr tt, s1) ∧
    nodeAtPath s1 parts = Some r ∧ heap s1 !! r = Some n1 ∧
    slot w1 n1 = Some level1 ∧
    setLogLevel ns2 level2 s1
    = (inr tt, mkStore (<[r := setSlot w2 level2 n1]> (heap s1))
                       (_namespaces s1)).
Proof.
  intros Hwf Hp1 Hp2.
  destruct (setLogLevel_spec _ level1 _ _ s Hwf Hp1)
    as (s1 & r & n1 & Hset1 & Hat1 & Hn1 & Hslot1 & _).
  exists s1, r, n1. repeat split; try assumption.
  exact (setLogLevel_existing _ level2 _ _ s1 r n1 Hp2 Hat1 Hn1).
Qed.

(** X5. An exact level that is assigned is the level that is looked up:
    in a well-formed store, for every namespace a lookup accepts,
    [setLogLevel(ns, level)] returns and [shouldLog(l, ns)] then answers
    [l <= level], whatever the tree held before. *)
Theorem assigned_level_is_looked_up ns parts w level s :
  wf s → namespaceParts ns false = inr (parts, w) →
  ∃ s', setLogLevel ns level s = (inr tt, s') ∧
        ∀ checkLevel, shouldLog checkLevel ns s'
                      = (inr (level_le checkLevel level), s').
Proof.
  intros Hwf Hp.
  destruct (namespaceParts_lookup_assign _ _ _ Hp) as [-> Hp'].
  destruct (setLogLevel_spec _ level _ _ s Hwf Hp')
    as (s' & r & n & Hset & Hat & Hn & Hslot & _).
  exists s'. split; [exact Hset|]. intros checkLevel.
  eapply shouldLog_at; [exact Hp|exact Hat|exact Hn|].
  cbn [slot] in Hslot. rewrite Hslot. reflexivity.
Qed.

Lemma assigned_level_is_looked_up_witness :
  ∃ s', setLogLevel (NsString "db:pool") DEBUG initial = (inr tt, s') ∧
        ∀ checkLevel, shouldLog checkLevel (NsString "db:pool") s'
                      = (inr (level_le checkLevel DEBUG), s').
Proof.
  exact (assigned_level_is_looked_up (NsString "db:pool") ["db"; "pool"]
           false DEBUG initial initial_wf eq_refl).
Defined.

(** X6. A cascading level that is assigned is inherited: in a
    well-formed store, after [setLogLevel] with a wildcard namespace the
    node of the parts carries the level in its cascading slot; a lookup
    of those parts answers from the exact level of the node if it has
    one and from the new level otherwise; and a lookup of any longer
    path whose next part has no node below it answers from the new
    level. *)
Theorem assigned_cascading_level_is_inherited ns parts level s :
  wf s → namespaceParts ns true = inr (parts, true) →
  ∃ s' r n,
    setLogLevel ns level s = (inr tt, s') ∧
    nodeAtPath s' parts = Some r ∧ heap s' !! r = Some n ∧
    cascadingLevel n = Some level ∧
    (∀ ns' w' checkLevel,
       namespaceParts ns' false = inr (parts, w') →
       shouldLog checkLevel ns' s'
       = (inr (level_le checkLevel (default level (nodeLevel n))), s')) ∧
    (∀ ns' part rest w' checkLevel,
       namespaceParts ns' false = inr (parts ++ part :: rest, w') →
       children n !! part = None →
       shouldLog checkLevel ns' s' = (inr (level_le checkLevel level), s')).
Proof.
  intros Hwf Hp.
  destruct (setLogLevel_spec _ level _ _ s Hwf Hp)
    as (s' & r & n & Hset & Hat & Hn & Hslot & _).
  cbn [slot] in Hslot.
  exists s', r, n. repeat split; try assumption.
  - intros ns' w' checkLevel Hp'.
    eapply shouldLog_at; [exact Hp'|exact Hat|exact Hn|].
    rewrite Hslot. destruct (nodeLevel n); reflexivity.
  - intros ns' part rest w' checkLevel Hp' Hpart.
    eapply shouldLog_inherits; eassumption.
Qed.

Lemma assigned_cascading_level_is_inherited_witness :
  ∃ s' r n,
    setLogLevel (NsString "db:*") DEBUG initial = (inr tt, s') ∧
    nodeAtPath s' ["db"] = Some r ∧ heap s' !! r = Some n ∧
    cascadingLevel n = Some DEBUG ∧
    (∀ ns' w' checkLevel,
       namespaceParts ns' false = inr (["db"], w') →
       shouldLog checkLevel ns' s'
       = (inr (level_le checkLevel (default DEBUG (nodeLevel n))), s')) ∧
    (∀ ns' part rest w' checkLevel,
       namespaceParts ns' false = inr (["db"] ++ part :: rest, w') →
       children n !! part = None →
       shouldLog checkLevel ns' s' = (inr (level_le checkLevel DEBUG), s')).
Proof.
  exact (assigned_cascading_level_is_inherited (NsString "db:*") ["db"]
           DEBUG initial initial_wf eq_refl).
Defined.

(** X7. The two slots of a node are independent and the exact one wins:
    in a well-formed store, after an exact and a wildcard assignment to
    the same parts, in either order, the node carries the exact level in
    [nodeLevel] and the wildcard level in [cascadingLevel], and a lookup
    of the parts answers from the exact level. *)
Theorem exact_and_cascading_slots_are_independent
    nsExact nsWild parts exact cascading s :
  wf s →
  namespaceParts nsExact true = inr (parts, false) →
  namespaceParts nsWild true = inr (parts, true) →
  (∃ s1 s2 r n,
     setLogLevel nsExact exact s = (inr tt, s1) ∧
     setLogLevel nsWild cascading s1 = (inr tt, s2) ∧
     nodeAtPath s2 parts = Some r ∧ heap s2 !! r = Some n ∧
     nodeLevel n = Some exact ∧ cascadingLevel n = Some cascading ∧
     ∀ checkLevel, shouldLog checkLevel nsExact s2
                   = (inr (level_le checkLevel exact), s2)) ∧
  (∃ s1 s2 r n,
     setLogLevel nsWild cascading s = (inr tt, s1) ∧
     setLogLevel nsExact exact s1 = (inr tt, s2) ∧
     nodeAtPath s2 parts = Some r ∧ heap s2 !! r = Some n ∧
     nodeLevel n = Some exact ∧ cascadingLevel n = Some cascading ∧
     ∀ checkLevel, shouldLog checkLevel nsExact s2
                   = (inr (level_le checkLevel exact), s2)).
Proof.
  intros Hwf He Hw. pose proof (namespaceParts_assign_lookup _ _ He) as Hl.
  split.
  - destruct (setLogLevel_twice nsExact nsWild parts _ _ exact cascading s
                Hwf He Hw) as (s1 & r & n1 & Hset1 & Hat1 & Hn1 & Hslot & Hset2).
    cbn [slot setSlot] in *.
    eexists s1, _, r, _. split; [exact Hset1|]. split; [exact Hset2|].
    split; [exact (nodeAt_setSlot s1 r n1 true cascading _ _ Hn1 Hat1)|].
    split; [cbn; apply lookup_insert_eq|].
    split; [exact Hslot|]. split; [reflexivity|].
    intros checkLevel.
    eapply shouldLog_at;
      [exact Hl|exact (nodeAt_setSlot s1 r n1 true cascading _ _ Hn1 Hat1)
      |cbn; apply lookup_insert_eq|].
    cbn. rewrite Hslot. reflexivity.
  - destruct (setLogLevel_twice nsWild nsExact parts _ _ cascading exact s
                Hwf Hw He) as (s1 & r & n1 & Hset1 & Hat1 & Hn1 & Hslot & Hset2).
    cbn [slot setSlot] in *.
    eexists s1, _, r, _. split; [exact Hset1|]. split; [exact Hset2|].
    split; [exact (nodeAt_setSlot s1 r n1 false exact _ _ Hn1 Hat1)|].
    split; [cbn; apply lookup_insert_eq|].
    split; [reflexivity|]. split; [exact Hslot|].
    intros checkLevel.
    eapply shouldLog_at;
      [exact Hl|exact (nodeAt_setSlot s1 r n1 false exact _ _ Hn1 Hat1)
      |cbn; apply lookup_insert_eq|].
    reflexivity.
Qed.

Lemma exact_and_cascading_slots_are_independent_witness :
  ∃ s1 s2 r n,
    setLogLevel (NsString "db") ERROR initial = (inr tt, s1) ∧
    setLogLevel (NsString "db:*") DEBUG s1 = (inr tt, s2) ∧
    nodeAtPath s2 ["db"] = Some r ∧ heap s2 !! r = Some n ∧
    nodeLevel n = Some ERROR ∧ cascadingLevel n = Some DEBUG ∧
    ∀ checkLevel, shouldLog checkLevel (NsString "db") s2
                  = (inr (level_le checkLevel ERROR), s2).
Proof.
  exact (proj1 (exact_and_cascading_slots_are_independent
                  (NsString "db") (NsString "db:*") ["db"] ERROR DEBUG
                  initial initial_wf eq_refl eq_refl)).
Defined.

(** X8. Repeating an assignment changes nothing: in a well-formed store,
    for every valid namespace, exact or wildcard, the same
    [setLogLevel] call made a second time returns and leaves the store
    exactly as the first call left it. *)
Theorem setLogLevel_idempotent ns parts w level s :
  wf s → namespaceParts ns true = inr (parts, w) →
  ∃ s1, setLogLevel ns level s = (inr tt, s1) ∧
        setLogLevel ns level s1 = (inr tt, s1).
Proof.
  intros Hwf Hp.
  destruct (setLogLevel_twice ns ns parts w w level level s Hwf Hp Hp)
    as (s1 & r & n1 & Hset1 & Hat1 & Hn1 & Hslot & Hset2).
  exists s1. split; [exact Hset1|]. rewrite Hset2. f_equal.
  assert (setSlot w level n1 = n1) as ->.
  { destruct n1, w; unfold setSlot, set_cascadingLevel, set_nodeLevel;
      cbn in *; congruence. }
  rewrite insert_id by exact Hn1. destruct s1; reflexivity.
Qed.

Lemma setLogLevel_idempotent_witness :
  ∃ s1, setLogLevel (NsString "db:pool:*") WARN initial = (inr tt, s1) ∧
        setLogLevel (NsString "db:pool:*") WARN s1 = (inr tt, s1).
Proof.
  exact (setLogLevel_idempotent (NsString "db:pool:*") ["db"; "pool"] true
           WARN initial initial_wf eq_refl).
Defined.

(** X9. Nodes are never deleted, moved or renamed by an assignment: in
    any store, whatever the namespace and whether or not the call
    throws, a path that leads to a node before [setLogLevel] leads to the
    same node after it, and the node keeps its segment and its
    children. *)
Theorem setLogLevel_keeps_nodes ns level s path r n :
  nodeAtPath s path = Some r → heap s !! r = Some n →
  nodeAtPath (snd (setLogLevel ns level s)) path = Some r ∧
  ∃ n', heap (snd (setLogLevel ns level s)) !! r = Some n' ∧
        namespacePart n' = namespacePart n ∧
        children n ⊆ children n'.
Proof.
  intros Hat Hr. destruct (setLogLevel_grows ns level s) as [Hext Hroot].
  split.
  - unfold nodeAtPath. rewrite Hroot. eapply nodeAt_ext; eassumption.
  - destruct (Hext r n Hr) as (n' & Hn' & Hpart & Hsub & _). eauto.
Qed.

Lemma setLogLevel_keeps_nodes_witness :
  nodeAtPath (snd (setLogLevel (NsString "a:c") DEBUG
                     (snd (setLogLevel (NsString "a:b") WARN initial))))
    ["a"; "b"] = Some 2%nat ∧
  ∃ n', heap (snd (setLogLevel (NsString "a:c") DEBUG
                     (snd (setLogLevel (NsString "a:b") WARN initial))))
          !! 2%nat = Some n' ∧
        namespacePart n' = namespacePart (mkNode "b" ∅ (Some WARN) None) ∧
        children (mkNode "b" ∅ (Some WARN) None) ⊆ children n'.
Proof.
  apply setLogLevel_keeps_nodes; vm_compute; reflexivity.
Defined.

(** X10. A lookup never writes: in any store, for any severity and any
    namespace, valid or not, the store after [shouldLog] is the store
    before it. *)
Theorem shouldLog_leaves_store checkLevel ns s :
  snd (shouldLog checkLevel ns s) = s.
Proof. symmetry. apply shouldLog_readonly. Qed.

(** ** The shape of the tree *)

#[local] Instance keepsTree_refl : Reflexive keepsTree.
Proof. intros s H. exact H. Qed.
#[local] Instance keepsTree_trans : Transitive keepsTree.
Proof. intros s1 s2 s3 H12 H23 H. auto. Qed.

Lemma nodeAt_allocated h path :
  closed h → ∀ r t, is_Some (h !! r) → nodeAt h r path = Some t →
                    is_Some (h !! t).
Proof.
  intros Hclosed. induction path as [|part path IH]; intros r t Hr; cbn.
  - intros [= <-]. exact Hr.
  - destruct (h !! r) as [n|] eqn:Hn; [|discriminate].
    destruct (children n !! part) as [c|] eqn:Hc; [|discriminate].
    apply IH. eapply Hclosed; eassumption.
Qed.

(** Paths depend on the [children] maps only. *)
Lemma nodeAt_write_levels h r n n' path :
  h !! r = Some n → children n' = children n →
  ∀ x, nodeAt (<[r := n']> h) x path = nodeAt h x path.
Proof.
  intros Hr Hch. induction path as [|part path IH]; intros x; cbn;
    [reflexivity|].
  rewrite lookup_insert. case_decide as Hx.
  - subst x. rewrite Hr, Hch. destruct (children n !! part); auto.
  - destruct (h !! x) as [m|]; [|reflexivity].
    destruct (children m !! part); auto.
Qed.

Lemma setSlot_children isWildcard level n :
  children (setSlot isWildcard level n) = children n.
Proof. destruct isWildcard; reflexivity. Qed.

Lemma setSlot_namespacePart isWildcard level n :
  namespacePart (setSlot isWildcard level n) = namespacePart n.
Proof. destruct isWildcard; reflexivity. Qed.

Lemma setLevel_setSlot isWildcard level r s :
  setLevel isWildcard level r s
  = match heap s !! r with
    | Some n => (inr tt, mkStore (<[r := setSlot isWildcard level n]> (heap s))
                                 (_namespaces s))
    | None => (inl DanglingReference, s)
    end.
Proof. unfold setLevel, setSlot, modify. destruct isWildcard; reflexivity. Qed.

Lemma keepsTree_setLevel isWildcard level r :
  preserves keepsTree (setLevel isWildcard level r).
Proof.
  intros s. rewrite setLevel_setSlot.
  destruct (heap s !! r) as [n|] eqn:Hr; [|reflexivity].
  intros (Hclosed & Hroot & Hkeyed & Htree). cbn [snd].
  split; [|split; [|split]]; cbn [heap _namespaces].
  - apply closed_insert; [assumption|].
    intros part c Hc. right. rewrite setSlot_children in Hc.
    eapply Hclosed; eassumption.
  - rewrite lookup_insert_is_Some'. auto.
  - intros x m part c cm Hx Hc Hcm.
    assert (∃ m0, heap s !! x = Some m0 ∧ children m0 !! part = Some c)
      as (m0 & Hm0 & Hc0).
    { rewrite lookup_insert in Hx. case_decide; [|eauto].
      injection Hx as <-. subst x. rewrite setSlot_children in Hc. eauto. }
    rewrite lookup_insert in Hcm. case_decide.
    + injection Hcm as <-. subst c. rewrite setSlot_namespacePart.
      exact (Hkeyed _ _ _ _ _ Hm0 Hc0 Hr).
    + exact (Hkeyed _ _ _ _ _ Hm0 Hc0 Hcm).
  - intros p q t. unfold nodeAtPath. cbn [heap _namespaces].
    rewrite !(nodeAt_write_levels _ _ _ _ _ Hr (setSlot_children _ _ _)).
    apply Htree.
Qed.

(** The paths of the store after one iteration of the extension loop:
    the paths of the store before it, and the paths to the parent with
    the new key added, which lead to the new child. *)
Lemma nodeAt_linked isWildcard level s cur n part rest path :
  closed (heap s) → heap s !! cur = Some n → children n !! part = None →
  ∀ r t, is_Some (heap s !! r) →
    nodeAt (heap (linked isWildcard level s cur n part rest)) r path = Some t →
    nodeAt (heap s) r path = Some t ∨
    ∃ path1, path = path1 ++ [part] ∧ nodeAt (heap s) r path1 = Some cur ∧
             t = fresh (dom (heap s)).
Proof.
  intros Hclosed Hcur Hpart. set (c := fresh (dom (heap s))).
  assert (heap s !! c = None) as Hc by apply fresh_not_allocated.
  induction path as [|k path IH]; intros r t Hr; cbn [nodeAt]; [auto|].
  cbn [linked heap]. fold c.
  assert (r ≠ c) as Hrc by (intros ->; rewrite Hc in Hr; destruct Hr; discriminate).
  rewrite lookup_insert. case_decide as Hrcur.
  - subst r. rewrite Hcur. cbn [set_child children].
    rewrite lookup_insert. case_decide as Hk.
    + subst k. destruct path as [|k' path]; cbn [nodeAt].
      * intros [= <-]. right. exists []. auto.
      * cbn [linked heap]. fold c. rewrite lookup_insert_ne, lookup_insert_eq
          by (intros ->; rewrite Hc in Hcur; discriminate).
        unfold newChild. destruct rest; [destruct isWildcard|]; cbn;
          rewrite lookup_empty; discriminate.
    + destruct (children n !! k) as [d|] eqn:Hd; [|discriminate].
      intros Hat. destruct (IH d t (Hclosed _ _ _ _ Hcur Hd) Hat)
        as [Hold|(path1 & -> & Hold & ->)]; [auto|].
      right. exists (k :: path1). cbn. rewrite Hcur, Hd. auto.
  - rewrite lookup_insert_ne by auto.
    destruct (heap s !! r) as [m|] eqn:Hm; [|discriminate].
    destruct (children m !! k) as [d|] eqn:Hd; [|discriminate].
    intros Hat. destruct (IH d t (Hclosed _ _ _ _ Hm Hd) Hat)
      as [Hold|(path1 & -> & Hold & ->)]; [auto|].
    right. exists (k :: path1). cbn. rewrite Hm, Hd. auto.
Qed.

Lemma linked_tree isWildcard level s cur n part rest :
  heap s !! cur = Some n → children n !! part = None →
  keepsTree s (linked isWildcard level s cur n part rest).
Proof.
  intros Hcur Hpart (Hclosed & Hroot & Hkeyed & Htree).
  set (c := fresh (dom (heap s))).
  assert (heap s !! c = None) as Hc by apply fresh_not_allocated.
  assert (cur ≠ c) as Hne by (intros ->; congruence).
  split; [|split; [|split]].
  - eapply linked_closed; eassumption.
  - cbn. rewrite !lookup_insert_is_Some'. auto.
  - intros x m k d dm Hx Hd Hdm. cbn [linked heap] in Hx, Hdm. fold c in Hx, Hdm.
    assert (namespacePart dm = k ∨
            ∃ m0, heap s !! x = Some m0 ∧ children m0 !! k = Some d)
      as [Hdone|(m0 & Hm0 & Hd0)].
    { rewrite lookup_insert in Hx. case_decide as Hxcur.
      - injection Hx as <-. subst x. cbn [set_child children] in Hd.
        rewrite lookup_insert in Hd. case_decide as Hk; [|eauto].
        injection Hd as <-. subst k. left.
        rewrite lookup_insert_ne, lookup_insert_eq in Hdm by auto.
        injection Hdm as <-. unfold newChild.
        destruct rest; [destruct isWildcard|]; reflexivity.
      - rewrite lookup_insert in Hx. case_decide as Hxc; [|eauto].
        injection Hx as <-. unfold newChild in Hd.
        destruct rest; [destruct isWildcard|]; cbn in Hd;
          rewrite lookup_empty in Hd; discriminate. }
    { exact Hdone. }
    destruct (Hclosed _ _ _ _ Hm0 Hd0) as [d0 Hd0'].
    assert (d ≠ c) as Hdc by (intros ->; congruence).
    rewrite lookup_insert in Hdm. case_decide as Hdcur.
    + injection Hdm as <-. subst d. cbn.
      eapply Hkeyed; [exact Hm0|exact Hd0|exact Hcur].
    + rewrite lookup_insert_ne in Hdm by auto.
      exact (Hkeyed _ _ _ _ _ Hm0 Hd0 Hdm).
  - intros p q t Hp Hq. unfold nodeAtPath in *.
    change (_namespaces (linked isWildcard level s cur n part rest))
      with (_namespaces s) in *.
    apply (nodeAt_linked _ _ _ _ _ _ _ _ Hclosed Hcur Hpart _ _ Hroot) in Hp, Hq.
    fold c in Hp, Hq.
    destruct Hp as [Hp|(p1 & -> & Hp & ->)], Hq as [Hq|(q1 & -> & Hq & Ht)].
    + eapply Htree; eassumption.
    + subst t. apply (nodeAt_allocated _ _ Hclosed _ _ Hroot) in Hp.
      rewrite Hc in Hp. destruct Hp; discriminate.
    + apply (nodeAt_allocated _ _ Hclosed _ _ Hroot) in Hq.
      rewrite Hc in Hq. destruct Hq; discriminate.
    + f_equal. eapply Htree; eassumption.
Qed.

Lemma extendLoop_tree isWildcard level remaining :
  ∀ cur, preserves keepsTree (extendLoop isWildcard level cur remaining).
Proof.
  induction remaining as [|part rest IH]; intros cur s; [reflexivity|].
  destruct (heap s !! cur) as [n|] eqn:Hcur.
  - destruct (children n !! part) as [c|] eqn:Hpart.
    + erewrite extendLoop_exists by eassumption. reflexivity.
    + erewrite extendLoop_step by eassumption.
      etransitivity; [eapply linked_tree; eassumption|apply IH].
  - rewrite extendLoop_dangling by assumption. reflexivity.
Qed.

Lemma setLogLevel_tree namespace level :
  preserves keepsTree (setLogLevel namespace level).
Proof.
  unfold setLogLevel.
  apply preserves_bind; [apply _..|apply preserves_lift; apply _|].
  intros [parts w].
  apply preserves_bind; [apply _..| |].
  - intros s. rewrite <- (findNearestNode_readonly parts s). reflexivity.
  - intros [[|node0 nodes] remaining]; [apply preserves_throw; apply _|].
    destruct (_ =? _)%nat;
      [apply keepsTree_setLevel|apply extendLoop_tree].
Qed.

Lemma reset_tree s :
  closed (heap s) → keyed (heap s) → isTree (snd (reset s)).
Proof.
  intros Hclosed Hkeyed.
  destruct (reset_wf s Hclosed) as [(root & Hroot & _) Hclosed'].
  pose proof (reset_root s) as Hnew.
  split; [exact Hclosed'|]. split; [eauto|]. split.
  - revert Hnew. unfold reset, createRootNode. unfold_M. cbn. intros _.
    set (c := fresh (dom (heap s))).
    assert (heap s !! c = None) as Hc by apply fresh_not_allocated.
    intros x m k d dm Hx Hd Hdm.
    rewrite lookup_insert in Hx. case_decide as Hxc.
    { injection Hx as <-. cbn in Hd. rewrite lookup_empty in Hd. discriminate. }
    destruct (Hclosed _ _ _ _ Hx Hd) as [d0 Hd0].
    rewrite lookup_insert_ne in Hdm by (intros ->; congruence).
    exact (Hkeyed _ _ _ _ _ Hx Hd Hdm).
  - intros p q t. unfold nodeAtPath.
    destruct p as [|kp p], q as [|kq q]; cbn [nodeAt]; try rewrite Hnew;
      cbn; rewrite ?lookup_empty; try discriminate. reflexivity.
Qed.

Lemma initial_tree : isTree initial.
Proof.
  apply (reset_tree (mkStore ∅ 0%nat)).
  - intros r n p c Hr. cbn in Hr. rewrite lookup_empty in Hr. discriminate.
  - intros r n p c cn Hr. cbn in Hr. rewrite lookup_empty in Hr. discriminate.
Qed.

Lemma reachable_tree s : reachable s → isTree s.
Proof.
  induction 1 as [|s c _ IH]; [apply initial_tree|].
  rewrite run_snd. destruct c as [ns l|l ns|].
  - apply setLogLevel_tree, IH.
  - exact IH.
  - apply reset_tree; apply IH.
Qed.

(** X11. A node's segment is the last part of its path: after any
    sequence of calls, the node a non-empty path leads to has the last
    part of the path as its [namespacePart]. *)
Theorem segment_is_last_part_of_path cs path part r n :
  nodeAtPath (runAll cs initial) (path ++ [part]) = Some r →
  heap (runAll cs initial) !! r = Some n →
  namespacePart n = part.
Proof.
  set (s := runAll cs initial).
  destruct (reachable_tree s (reachable_runAll cs _ reach_initial))
    as (_ & _ & Hkeyed & _).
  unfold nodeAtPath. rewrite nodeAt_app.
  destruct (nodeAt (heap s) (_namespaces s) path) as [m|]; [|discriminate].
  cbn. destruct (heap s !! m) as [mn|] eqn:Hm; [|discriminate].
  destruct (children mn !! part) as [c|] eqn:Hc; [|discriminate].
  intros [= ->] Hr. exact (Hkeyed _ _ _ _ _ Hm Hc Hr).
Qed.

Lemma segment_is_last_part_of_path_witness :
  nodeAtPath (runAll [CallSetLogLevel (NsString "a:b") WARN] initial)
    (["a"] ++ ["b"]) = Some 2%nat ∧
  heap (runAll [CallSetLogLevel (NsString "a:b") WARN] initial) !! 2%nat
    = Some (mkNode "b" ∅ (Some WARN) None) ∧
  namespacePart (mkNode "b" ∅ (Some WARN) None) = "b".
Proof.
  assert (nodeAtPath (runAll [CallSetLogLevel (NsString "a:b") WARN] initial)
            (["a"] ++ ["b"]) = Some 2%nat) as Hat by (vm_compute; reflexivity).
  assert (heap (runAll [CallSetLogLevel (NsString "a:b") WARN] initial)
            !! 2%nat = Some (mkNode "b" ∅ (Some WARN) None)) as Hn
    by (vm_compute; reflexivity).
  split; [exact Hat|]. split; [exact Hn|].
  exact (segment_is_last_part_of_path _ _ _ _ _ Hat Hn).
Defined.

(** X12. The store holds a tree: after any sequence of calls, two paths
    from the root that lead to the same node are the same path, so no
    node is shared between two parents or two keys and no node lies
    below itself. *)
Theorem namespaces_form_a_tree cs p q r :
  nodeAtPath (runAll cs initial) p = Some r →
  nodeAtPath (runAll cs initial) q = Some r →
  p = q.
Proof.
  destruct (reachable_tree _ (reachable_runAll cs _ reach_initial))
    as (_ & _ & _ & Htree).
  apply Htree.
Qed.

Lemma namespaces_form_a_tree_witness :
  nodeAtPath (runAll [CallSetLogLevel (NsString "a:b") WARN] initial)
    ["a"; "b"] = Some 2%nat ∧
  ["a"; "b"] = ["a"; "b"].
Proof.
  assert (nodeAtPath (runAll [CallSetLogLevel (NsString "a:b") WARN] initial)
            ["a"; "b"] = Some 2%nat) as Hat by (vm_compute; reflexivity).
  split; [exact Hat|].
  exact (namespaces_form_a_tree _ _ _ _ Hat Hat).
Defined.

(** ** What an assignment leaves alone *)

(** Writing a level slot of the node [t] changes the resolution of a path
    only if the path meets [t] where that slot is read: the cascading
    slot anywhere on the path, the exact slot at its end. *)
Lemma resolveFrom_setSlot h t tn isWildcard level path :
  h !! t = Some tn →
  ∀ r inherited,
    (∀ path1 path2, path = path1 ++ path2 → nodeAt h r path1 = Some t →
                    isWildcard = false ∧ path2 ≠ []) →
    resolveFrom (<[t := setSlot isWildcard level tn]> h) r inherited path
    = resolveFrom h r inherited path.
Proof.
  intros Ht. induction path as [|k path IH]; intros r inherited Hmeet;
    cbn [resolveFrom]; rewrite lookup_insert; case_decide as Hrt.
  - subst r. destruct (Hmeet [] [] eq_refl eq_refl) as [_ []]. reflexivity.
  - reflexivity.
  - subst r. destruct (Hmeet [] (k :: path) eq_refl eq_refl) as [-> _].
    rewrite Ht. cbn [setSlot set_nodeLevel cascadingLevel children].
    destruct (children tn !! k) as [c|] eqn:Hc; [|reflexivity].
    apply IH. intros path1 path2 -> Hat.
    apply (Hmeet (k :: path1) path2 eq_refl). cbn. rewrite Ht, Hc. exact Hat.
  - destruct (h !! r) as [n|] eqn:Hn; [|reflexivity].
    destruct (children n !! k) as [c|] eqn:Hc; [|reflexivity].
    apply IH. intros path1 path2 -> Hat.
    apply (Hmeet (k :: path1) path2 eq_refl). cbn. rewrite Hn, Hc. exact Hat.
Qed.

(** One iteration of the extension loop changes the resolution of a path
    only if the path goes through the new child and the child carries a
    level where the path reads it. *)
Lemma resolveFrom_linked isWildcard level s cur n part rest path :
  closed (heap s) → heap s !! cur = Some n → children n !! part = None →
  ∀ r inherited,
    is_Some (heap s !! r) →
    (∀ path1 path2, path = path1 ++ part :: path2 →
       nodeAt (heap s) r path1 = Some cur →
       cascadingLevel (newChild isWildcard level part rest) = None ∧
       (path2 = [] → nodeLevel (newChild isWildcard level part rest) = None)) →
    resolveFrom (heap (linked isWildcard level s cur n part rest))
      r inherited path
    = resolveFrom (heap s) r inherited path.
Proof.
  intros Hclosed Hcur Hpart. set (c := fresh (dom (heap s))).
  assert (heap s !! c = None) as Hc by apply fresh_not_allocated.
  assert (cur ≠ c) as Hne by (intros ->; congruence).
  induction path as [|k path IH]; intros r inherited Hr Hmeet;
    cbn [resolveFrom linked heap]; fold c;
    (assert (r ≠ c) as Hrc
       by (intros ->; rewrite Hc in Hr; destruct Hr; discriminate));
    rewrite lookup_insert; case_decide as Hrcur.
  - subst r. rewrite Hcur. reflexivity.
  - rewrite lookup_insert_ne by auto. reflexivity.
  - subst r. rewrite Hcur. cbn [set_child children cascadingLevel].
    rewrite lookup_insert. case_decide as Hk.
    + subst k. rewrite Hpart.
      destruct (Hmeet [] path eq_refl eq_refl) as [Hcasc Hexact].
      destruct path as [|k' path]; cbn [resolveFrom linked heap]; fold c;
        rewrite lookup_insert_ne, lookup_insert_eq by auto; rewrite Hcasc.
      * rewrite (Hexact eq_refl). reflexivity.
      * assert (children (newChild isWildcard level part rest) !! k' = None)
          as -> by (unfold newChild; destruct rest; [destruct isWildcard|];
                    apply lookup_empty).
        reflexivity.
    + destruct (children n !! k) as [d|] eqn:Hd; [|reflexivity].
      apply IH; [eapply Hclosed; eassumption|].
      intros path1 path2 -> Hat.
      apply (Hmeet (k :: path1) path2 eq_refl). cbn. rewrite Hcur, Hd.
      exact Hat.
  - rewrite lookup_insert_ne by auto.
    destruct (heap s !! r) as [m|] eqn:Hm; [|reflexivity].
    destruct (children m !! k) as [d|] eqn:Hd; [|reflexivity].
    apply IH; [eapply Hclosed; eassumption|].
    intros path1 path2 -> Hat.
    apply (Hmeet (k :: path1) path2 eq_refl). cbn. rewrite Hm, Hd.
    exact Hat.
Qed.

(** The paths an assignment to [target] may change the level of: the
    path itself for an exact assignment, the path and all that extend it
    for a wildcard one. *)
Lemma affected_cases (isWildcard : bool) (target path : list string) :
  (if isWildcard then ¬ target `prefix_of` path else path ≠ target) →
  ∀ path2, path = target ++ path2 → isWildcard = false ∧ path2 ≠ [].
Proof.
  intros Hfree path2 ->. destruct isWildcard.
  - destruct Hfree. exists path2. reflexivity.
  - split; [reflexivity|]. intros ->. rewrite app_nil_r in Hfree. auto.
Qed.

Lemma extendLoop_frame (isWildcard : bool) level rest :
  ∀ (part : string) cur s n (above path : list string),
    isTree s →
    nodeAtPath s above = Some cur →
    heap s !! cur = Some n → children n !! part = None →
    (if isWildcard then ¬ (above ++ part :: rest) `prefix_of` path
     else path ≠ above ++ part :: rest) →
    effectiveLevel (snd (extendLoop isWildcard level cur (part :: rest) s))
      path
    = effectiveLevel s path.
Proof.
  induction rest as [|part' rest IH];
    intros part cur s n above path Htree Habove Hcur Hpart Hfree;
    rewrite (extendLoop_step _ _ _ _ _ _ _ Hcur Hpart);
    pose proof Htree as (Hclosed & Hroot & _ & Hshape).
  - cbn [extendLoop ret snd]. unfold effectiveLevel.
    change (_namespaces (linked isWildcard level s cur n part []))
      with (_namespaces s).
    apply resolveFrom_linked; try assumption.
    intros path1 path2 -> Hat.
    assert (path1 = above) as -> by (eapply Hshape; eassumption).
    destruct (affected_cases _ _ _ Hfree path2) as [-> Hne].
    { rewrite <- app_assoc. reflexivity. }
    split; [reflexivity|]. intros ->. destruct Hne.
    reflexivity.
  - set (s2 := linked isWildcard level s cur n part (part' :: rest)).
    assert (effectiveLevel s2 path = effectiveLevel s path) as <-.
    { unfold effectiveLevel.
      change (_namespaces s2) with (_namespaces s).
      apply resolveFrom_linked; try assumption.
      intros; split; reflexivity. }
    assert (cur ≠ fresh (dom (heap s))) as Hne.
    { intros E. rewrite E, fresh_not_allocated in Hcur. discriminate. }
    apply (IH part' _ s2 (mkNode part ∅ None None) (above ++ [part]) path).
    + eapply linked_tree; eassumption.
    + unfold nodeAtPath. rewrite nodeAt_app.
      change (_namespaces s2) with (_namespaces s). unfold s2.
      rewrite (nodeAt_ext _ _ _
                 (proj1 (linked_grows isWildcard level s cur n part
                           (part' :: rest) Hcur Hpart)) _ _ Habove).
      cbn. rewrite lookup_insert_eq. cbn. rewrite lookup_insert_eq.
      reflexivity.
    + cbn. rewrite lookup_insert_ne, lookup_insert_eq by auto. reflexivity.
    + apply lookup_empty.
    + rewrite <- app_assoc. exact Hfree.
Qed.

(** An assignment changes the level of no path but its own, and, with a
    wildcard, of the paths that extend its own. *)
Lemma setLogLevel_frame ns level parts (isWildcard : bool) s
    (path : list string) :
  isTree s → namespaceParts ns true = inr (parts, isWildcard) →
  (if isWildcard then ¬ parts `prefix_of` path else path ≠ parts) →
  effectiveLevel (snd (setLogLevel ns level s)) path = effectiveLevel s path.
Proof.
  intros Htree Hp Hfree. pose proof Htree as (Hclosed & Hroot & _ & Hshape).
  destruct (findLoop_spec s parts Hclosed (_namespaces s) [] Hroot)
    as (pre & node0 & nodes & consumed & remaining
        & Hrun & _ & _ & Hparts & Hat & n0 & Hn0 & Hmiss).
  destruct remaining as [|part rest].
  - rewrite app_nil_r in Hparts. subst consumed.
    rewrite (setLogLevel_existing _ _ _ _ _ _ _ Hp Hat Hn0).
    unfold effectiveLevel. cbn [snd heap _namespaces].
    apply resolveFrom_setSlot; [exact Hn0|].
    intros path1 path2 Hpath Hat1.
    assert (path1 = parts) as -> by (eapply Hshape; eassumption).
    eapply affected_cases; eassumption.
  - assert (setLogLevel ns level s
            = extendLoop isWildcard level node0 (part :: rest) s) as ->.
    { unfold setLogLevel, findNearestNode. unfold_M. rewrite Hp. cbn.
      rewrite Hrun. reflexivity. }
    eapply extendLoop_frame; try eassumption.
    + eapply Hmiss. reflexivity.
    + rewrite <- Hparts. exact Hfree.
Qed.

Lemma shouldLog_frame checkLevel ns level parts isWildcard ns' parts' w' s :
  reachable s →
  namespaceParts ns true = inr (parts, isWildcard) →
  namespaceParts ns' false = inr (parts', w') →
  (if isWildcard then ¬ parts `prefix_of` parts' else parts' ≠ parts) →
  fst (shouldLog checkLevel ns' (snd (setLogLevel ns level s)))
  = fst (shouldLog checkLevel ns' s).
Proof.
  intros Hreach Hp Hp' Hfree.
  pose proof (reachable_tree s Hreach) as Htree.
  pose proof (setLogLevel_tree ns level s Htree) as (Hclosed' & Hroot' & _).
  pose proof Htree as (Hclosed & Hroot & _).
  rewrite (shouldLog_effectiveLevel _ _ _ _ _ Hclosed' Hroot' Hp').
  rewrite (shouldLog_effectiveLevel _ _ _ _ _ Hclosed Hroot Hp').
  cbn [fst]. rewrite (setLogLevel_frame _ _ _ _ _ _ Htree Hp Hfree).
  reflexivity.
Qed.

(** X13. An exact assignment is scoped to its own namespace: after any
    sequence of calls, [setLogLevel] with a namespace without wildcard
    changes the answer of [shouldLog] for no namespace whose parts differ
    from its own — neither for an ancestor, nor for a descendant, nor
    for a namespace elsewhere in the tree. *)
Theorem exact_assignment_changes_no_other_namespace
    cs checkLevel ns level parts ns' parts' w' :
  namespaceParts ns true = inr (parts, false) →
  namespaceParts ns' false = inr (parts', w') →
  parts' ≠ parts →
  fst (shouldLog checkLevel ns'
         (snd (setLogLevel ns level (runAll cs initial))))
  = fst (shouldLog checkLevel ns' (runAll cs initial)).
Proof.
  intros Hp Hp' Hne.
  eapply shouldLog_frame;
    [apply reachable_runAll; constructor|exact Hp|exact Hp'|exact Hne].
Qed.

Lemma exact_assignment_changes_no_other_namespace_witness :
  fst (shouldLog DEBUG (NsString "a:b:c")
         (snd (setLogLevel (NsString "a:b") DEBUG
                 (runAll [CallSetLogLevel (NsString "a:*") WARN] initial))))
  = fst (shouldLog DEBUG (NsString "a:b:c")
           (runAll [CallSetLogLevel (NsString "a:*") WARN] initial)).
Proof.
  apply (exact_assignment_changes_no_other_namespace
           [CallSetLogLevel (NsString "a:*") WARN] DEBUG (NsString "a:b")
           DEBUG ["a"; "b"] (NsString "a:b:c") ["a"; "b"; "c"] false);
    [reflexivity|reflexivity|discriminate].
Defined.

(** X14. A wildcard assignment reaches its own subtree only: after any
    sequence of calls, [setLogLevel] with a wildcard namespace changes
    the answer of [shouldLog] for no namespace whose parts do not start
    with the parts of the wildcard namespace. *)
Theorem wildcard_assignment_changes_only_its_subtree
    cs checkLevel ns level parts ns' parts' w' :
  namespaceParts ns true = inr (parts, true) →
  namespaceParts ns' false = inr (parts', w') →
  ¬ parts `prefix_of` parts' →
  fst (shouldLog checkLevel ns'
         (snd (setLogLevel ns level (runAll cs initial))))
  = fst (shouldLog checkLevel ns' (runAll cs initial)).
Proof.
  intros Hp Hp' Hfree.
  eapply shouldLog_frame;
    [apply reachable_runAll; constructor|exact Hp|exact Hp'|exact Hfree].
Qed.

Lemma wildcard_assignment_changes_only_its_subtree_witness :
  fst (shouldLog DEBUG (NsString "a:c")
         (snd (setLogLevel (NsString "a:b:*") DEBUG
                 (runAll [CallSetLogLevel (NsString "a:*") WARN] initial))))
  = fst (shouldLog DEBUG (NsString "a:c")
           (runAll [CallSetLogLevel (NsString "a:*") WARN] initial)).
Proof.
  apply (wildcard_assignment_changes_only_its_subtree
           [CallSetLogLevel (NsString "a:*") WARN] DEBUG (NsString "a:b:*")
           DEBUG ["a"; "b"] (NsString "a:c") ["a"; "c"] false);
    [reflexivity|reflexivity|].
  intros [k Hk]. discriminate Hk.
Defined.

(** ** The tree as a map from paths to level slots *)

Lemma levelsOf_newChild isWildcard level part rest :
  levelsOf (newChild isWildcard level part rest)
  = match rest with
    | [] => assignSlot isWildcard level (None, None)
    | _ => (None, None)
    end.
Proof. destruct rest; [destruct isWildcard|]; reflexivity. Qed.

(** The view after one iteration of the extension loop: one more path
    has a node, the new child. *)
Lemma levelsAt_linked isWildcard level s cur n part rest above path :
  isTree s → nodeAtPath s above = Some cur →
  heap s !! cur = Some n → children n !! part = None →
  levelsAt (linked isWildcard level s cur n part rest) path
  = if decide (path = above ++ [part])
    then Some (levelsOf (newChild isWildcard level part rest))
    else levelsAt s path.
Proof.
  intros (Hclosed & Hroot & _ & Hshape) Habove Hcur Hpart.
  set (c := fresh (dom (heap s))).
  assert (heap s !! c = None) as Hc by apply fresh_not_allocated.
  assert (cur ≠ c) as Hne by (intros ->; congruence).
  pose proof (linked_grows isWildcard level s cur n part rest Hcur Hpart)
    as [Hext _].
  assert (nodeAtPath (linked isWildcard level s cur n part rest)
            (above ++ [part]) = Some c) as Hnew.
  { unfold nodeAtPath. rewrite nodeAt_app.
    change (_namespaces (linked isWildcard level s cur n part rest))
      with (_namespaces s).
    rewrite (nodeAt_ext _ _ _ Hext _ _ Habove).
    cbn. rewrite lookup_insert_eq. cbn. rewrite lookup_insert_eq. reflexivity. }
  unfold levelsAt. case_decide as Hpath.
  - subst path. rewrite Hnew. cbn. fold c.
    rewrite lookup_insert_ne, lookup_insert_eq by auto. reflexivity.
  - destruct (nodeAtPath (linked isWildcard level s cur n part rest) path)
      as [t|] eqn:Hat.
    + unfold nodeAtPath in Hat.
      change (_namespaces (linked isWildcard level s cur n part rest))
        with (_namespaces s) in Hat.
      apply (nodeAt_linked _ _ _ _ _ _ _ _ Hclosed Hcur Hpart _ _ Hroot) in Hat.
      destruct Hat as [Hold|(path1 & -> & Hold & _)].
      * unfold nodeAtPath. rewrite Hold.
        pose proof (nodeAt_allocated _ _ Hclosed _ _ Hroot Hold) as [tn Htn].
        cbn [linked heap]. fold c.
        rewrite lookup_insert. case_decide as Ht.
        -- subst t. rewrite Hcur. reflexivity.
        -- rewrite lookup_insert_ne by (intros <-; congruence). reflexivity.
      * destruct Hpath. f_equal. eapply Hshape; eassumption.
    + destruct (nodeAtPath s path) as [t|] eqn:Hold; [|reflexivity].
      unfold nodeAtPath in Hat, Hold.
      apply (nodeAt_ext _ _ _ Hext) in Hold.
      change (_namespaces (linked isWildcard level s cur n part rest))
        with (_namespaces s) in Hat.
      congruence.
Qed.

Lemma prefix_of_same_length {A} (l1 l2 l3 : list A) :
  l1 `prefix_of` l3 → l2 `prefix_of` l3 → length l1 = length l2 → l1 = l2.
Proof.
  intros H1 H2 Hlen. destruct (prefix_weak_total _ _ _ H1 H2) as [H|H].
  - apply prefix_length_eq; [exact H|lia].
  - symmetry. apply prefix_length_eq; [exact H|lia].
Qed.

(** The view after the whole extension loop: the last new node carries
    the level, the new nodes before it carry none. *)
Lemma extendLoop_levelsAt isWildcard level rest :
  ∀ (part : string) cur s n (above path : list string),
    isTree s → nodeAtPath s above = Some cur →
    heap s !! cur = Some n → children n !! part = None →
    levelsAt (snd (extendLoop isWildcard level cur (part :: rest) s)) path
    = if decide (path = above ++ part :: rest)
      then Some (assignSlot isWildcard level (None, None))
      else if decide (path `prefix_of` (above ++ part :: rest) ∧
                      length above < length path)
           then Some (None, None)
           else levelsAt s path.
Proof.
  induction rest as [|part' rest IH];
    intros part cur s n above path Htree Habove Hcur Hpart;
    rewrite (extendLoop_step _ _ _ _ _ _ _ Hcur Hpart).
  - cbn [extendLoop ret snd].
    rewrite (levelsAt_linked _ _ _ _ _ _ _ above _ Htree Habove Hcur Hpart).
    rewrite levelsOf_newChild.
    case_decide as Hpath; [reflexivity|].
    case_decide as Hmid; [|reflexivity].
    destruct Hmid as [Hpre Hlen]. destruct Hpath.
    apply prefix_length_eq; [exact Hpre|].
    rewrite length_app. cbn. lia.
  - set (s2 := linked isWildcard level s cur n part (part' :: rest)).
    assert (cur ≠ fresh (dom (heap s))) as Hne.
    { intros E. rewrite E, fresh_not_allocated in Hcur. discriminate. }
    rewrite (IH part' _ s2 (mkNode part ∅ None None) (above ++ [part]) path).
    + unfold s2.
      rewrite (levelsAt_linked _ _ _ _ _ _ _ above _ Htree Habove Hcur Hpart).
      rewrite levelsOf_newChild, <- !app_assoc. cbn [app].
      case_decide as Hpath; [reflexivity|].
      assert ((above ++ [part]) `prefix_of` (above ++ part :: part' :: rest))
        as Hpre1.
      { exists (part' :: rest). rewrite <- app_assoc. reflexivity. }
      destruct (decide (path `prefix_of` (above ++ part :: part' :: rest) ∧
                        length (above ++ [part]) < length path)) as [H1|H1];
        destruct (decide (path `prefix_of` (above ++ part :: part' :: rest) ∧
                          length above < length path)) as [H2|H2];
        destruct (decide (path = above ++ [part])) as [H3|H3];
        try reflexivity; exfalso.
      * apply H2. split; [tauto|].
        destruct H1 as [_ H1]. rewrite length_app in H1. cbn in H1. lia.
      * apply H2. split; [tauto|].
        destruct H1 as [_ H1]. rewrite length_app in H1. cbn in H1. lia.
      * apply H3. destruct H2 as [Hpre Hlen].
        apply (prefix_of_same_length _ _ _ Hpre Hpre1).
        rewrite length_app. cbn.
        destruct (decide (S (length above) < length path)); [|lia].
        destruct H1. split; [assumption|]. rewrite length_app. cbn. lia.
      * apply H2. subst path. split; [exact Hpre1|].
        rewrite length_app. cbn. lia.
    + eapply linked_tree; eassumption.
    + unfold nodeAtPath. rewrite nodeAt_app.
      change (_namespaces s2) with (_namespaces s). unfold s2.
      rewrite (nodeAt_ext _ _ _
                 (proj1 (linked_grows isWildcard level s cur n part
                           (part' :: rest) Hcur Hpart)) _ _ Habove).
      cbn. rewrite lookup_insert_eq. cbn. rewrite lookup_insert_eq.
      reflexivity.
    + cbn. rewrite lookup_insert_ne, lookup_insert_eq by auto. reflexivity.
    + apply lookup_empty.
Qed.

Lemma nodeAt_prefix h r path1 path2 t :
  nodeAt h r (path1 ++ path2) = Some t → is_Some (nodeAt h r path1).
Proof.
  rewrite nodeAt_app. destruct (nodeAt h r path1); [eauto|discriminate].
Qed.

Lemma levelsAt_exists s path t :
  closed (heap s) → is_Some (heap s !! _namespaces s) →
  nodeAtPath s path = Some t → is_Some (levelsAt s path).
Proof.
  intros Hclosed Hroot Hat. unfold levelsAt. rewrite Hat.
  destruct (nodeAt_allocated _ _ Hclosed _ _ Hroot Hat) as [n ->]. cbn. eauto.
Qed.

(** The view after an assignment is the view before it with the slot
    written and the missing nodes of the way added. *)
Lemma setLogLevel_levelsAt ns level parts (isWildcard : bool) s
    (path : list string) :
  isTree s → namespaceParts ns true = inr (parts, isWildcard) →
  levelsAt (snd (setLogLevel ns level s)) path
  = assignView parts isWildcard level (levelsAt s) path.
Proof.
  intros Htree Hp. pose proof Htree as (Hclosed & Hroot & _ & Hshape).
  destruct (findLoop_spec s parts Hclosed (_namespaces s) [] Hroot)
    as (pre & node0 & nodes & consumed & remaining
        & Hrun & _ & _ & Hparts & Hat & n0 & Hn0 & Hmiss).
  unfold assignView. destruct remaining as [|part rest].
  - rewrite app_nil_r in Hparts. subst consumed.
    rewrite (setLogLevel_existing _ _ _ _ _ _ _ Hp Hat Hn0). cbn [snd].
    unfold levelsAt at 1. unfold nodeAtPath. cbn [heap _namespaces].
    rewrite (nodeAt_write_levels _ _ _ _ _ Hn0 (setSlot_children _ _ _)).
    fold (nodeAtPath s path).
    case_decide as Hpath.
    + subst path. unfold levelsAt, nodeAtPath. rewrite Hat, Hn0.
      rewrite lookup_insert_eq. cbn. destruct isWildcard; reflexivity.
    + assert (match nodeAtPath s path with
              | Some r => levelsOf <$>
                            <[node0 := setSlot isWildcard level n0]> (heap s) !! r
              | None => None
              end = levelsAt s path) as ->.
      { unfold levelsAt. destruct (nodeAtPath s path) as [t|] eqn:Ht;
          [|reflexivity].
        rewrite lookup_insert_ne; [reflexivity|].
        intros <-. apply Hpath. eapply Hshape; eassumption. }
      case_decide as Hpre; [|reflexivity].
      destruct Hpre as [k ->].
      destruct (nodeAt_prefix _ _ _ _ _ Hat) as [t Ht].
      destruct (levelsAt_exists s path t Hclosed Hroot Ht) as [x ->].
      reflexivity.
  - assert (setLogLevel ns level s
            = extendLoop isWildcard level node0 (part :: rest) s) as ->.
    { unfold setLogLevel, findNearestNode. unfold_M. rewrite Hp. cbn.
      rewrite Hrun. reflexivity. }
    rewrite (extendLoop_levelsAt _ _ _ _ _ _ _ consumed path Htree Hat Hn0
               (Hmiss _ _ eq_refl)).
    rewrite <- Hparts.
    assert (consumed `prefix_of` parts) as Hcons by (eexists; exact Hparts).
    case_decide as Hpath.
    + subst path.
      assert (levelsAt s parts = None) as ->; [|reflexivity].
      unfold levelsAt, nodeAtPath. rewrite Hparts, nodeAt_app, Hat. cbn.
      rewrite Hn0, (Hmiss _ _ eq_refl). reflexivity.
    + destruct (decide (path `prefix_of` parts)) as [Hpre|Hpre].
      * destruct (decide (length consumed < length path)) as [Hlen|Hlen].
        -- rewrite decide_True by auto.
           assert (levelsAt s path = None) as ->; [|reflexivity].
           destruct (prefix_weak_total _ _ _ Hcons Hpre) as [[m ->]|Hrev].
           ++ rewrite Hparts in Hpre. apply prefix_app_inv in Hpre.
              destruct m as [|k m]; [rewrite app_nil_r in Hlen; lia|].
              apply prefix_cons_inv_1 in Hpre. subst k.
              unfold levelsAt, nodeAtPath. rewrite nodeAt_app, Hat. cbn.
              rewrite Hn0, (Hmiss _ _ eq_refl). reflexivity.
           ++ apply prefix_length in Hrev. lia.
        -- rewrite decide_False by tauto.
           assert (path `prefix_of` consumed) as [m ->].
           { destruct (prefix_weak_total _ _ _ Hcons Hpre) as [Hc|Hrev];
               [|exact Hrev].
             rewrite (prefix_length_eq _ _ Hc); [reflexivity|lia]. }
           destruct (nodeAt_prefix _ _ _ _ _ Hat) as [t Ht].
           destruct (levelsAt_exists s path t Hclosed Hroot Ht) as [x ->].
           reflexivity.
      * rewrite decide_False by tauto. reflexivity.
Qed.

Lemma levelsAt_reset s path :
  levelsAt (snd (reset s)) path
  = match path with
    | [] => Some (None, Some DEFAULT_ROOT_LEVEL)
    | _ :: _ => None
    end.
Proof.
  unfold levelsAt, nodeAtPath. destruct path as [|part path]; cbn [nodeAt];
    rewrite reset_root; [reflexivity|].
  cbn. rewrite lookup_empty. reflexivity.
Qed.

(** The resolution from the root down reads the view only. *)
Lemma resolveFrom_viewResolve s rest :
  closed (heap s) →
  ∀ above r inherited,
    nodeAtPath s above = Some r →
    resolveFrom (heap s) r inherited rest
    = viewResolve (levelsAt s) above inherited rest.
Proof.
  intros Hclosed. induction rest as [|part rest IH];
    intros above r inherited Habove; cbn [resolveFrom viewResolve];
    unfold levelsAt at 1; rewrite Habove;
    (destruct (heap s !! r) as [n|] eqn:Hn; [|reflexivity]); cbn;
    [reflexivity|].
  assert (nodeAtPath s (above ++ [part]) = children n !! part) as Hnext.
  { unfold nodeAtPath. rewrite nodeAt_app.
    unfold nodeAtPath in Habove. rewrite Habove. cbn. rewrite Hn.
    destruct (children n !! part); reflexivity. }
  unfold levelsAt at 1. rewrite Hnext.
  destruct (children n !! part) as [c|] eqn:Hc; [|reflexivity].
  destruct (Hclosed _ _ _ _ Hn Hc) as [cn Hcn]. rewrite Hcn. cbn.
  apply IH. exact Hnext.
Qed.

Lemma viewResolve_ext view1 view2 rest :
  (∀ path, view1 path = view2 path) →
  ∀ above inherited,
    viewResolve view1 above inherited rest
    = viewResolve view2 above inherited rest.
Proof.
  intros Hv. induction rest as [|part rest IH]; intros above inherited;
    cbn [viewResolve]; rewrite !Hv; [reflexivity|].
  destruct (view2 above) as [[e c]|]; [|reflexivity].
  destruct (view2 (above ++ [part])); [apply IH|reflexivity].
Qed.

Lemma effectiveLevel_sameView s1 s2 path :
  closed (heap s1) → closed (heap s2) → sameView s1 s2 →
  effectiveLevel s1 path = effectiveLevel s2 path.
Proof.
  intros H1 H2 Hview. unfold effectiveLevel.
  rewrite (resolveFrom_viewResolve s1 path H1 [] _ None eq_refl).
  rewrite (resolveFrom_viewResolve s2 path H2 [] _ None eq_refl).
  apply viewResolve_ext, Hview.
Qed.

(** Two reachable stores with the same view answer a call alike and have
    the same view after it. *)
Lemma run_sameView c s1 s2 :
  reachable s1 → reachable s2 → sameView s1 s2 →
  fst (run c s1) = fst (run c s2) ∧
  sameView (snd (run c s1)) (snd (run c s2)).
Proof.
  intros Hr1 Hr2 Hview.
  pose proof (reachable_tree _ Hr1) as Ht1.
  pose proof (reachable_tree _ Hr2) as Ht2.
  pose proof (reachable_wf _ Hr1) as Hwf1.
  pose proof (reachable_wf _ Hr2) as Hwf2.
  rewrite !run_snd. destruct c as [ns l|l ns|]; cbn [run];
    unfold mbind, M_bind, bind.
  - destruct (namespaceParts ns true) as [e|[parts w]] eqn:Hp.
    + rewrite !(setLogLevel_invalid _ _ _ _ Hp). split; [reflexivity|exact Hview].
    + split.
      * destruct (setLogLevel_spec ns l parts w s1 Hwf1 Hp)
          as (? & _ & _ & -> & _).
        destruct (setLogLevel_spec ns l parts w s2 Hwf2 Hp)
          as (? & _ & _ & -> & _).
        reflexivity.
      * intros path.
        rewrite (setLogLevel_levelsAt _ _ _ _ s1 _ Ht1 Hp),
          (setLogLevel_levelsAt _ _ _ _ s2 _ Ht2 Hp).
        unfold assignView. rewrite (Hview path). reflexivity.
  - split; [|exact Hview].
    destruct (namespaceParts ns false) as [e|[parts w]] eqn:Hp.
    + rewrite !(shouldLog_invalid _ _ _ _ Hp). reflexivity.
    + destruct Ht1 as (Hc1 & Hroot1 & _), Ht2 as (Hc2 & Hroot2 & _).
      rewrite (shouldLog_effectiveLevel _ _ _ _ s1 Hc1 Hroot1 Hp),
        (shouldLog_effectiveLevel _ _ _ _ s2 Hc2 Hroot2 Hp). cbn [fst].
      rewrite (effectiveLevel_sameView s1 s2 parts Hc1 Hc2 Hview).
      destruct (effectiveLevel s2 parts); reflexivity.
  - split; [reflexivity|]. intros path. rewrite !levelsAt_reset. reflexivity.
Qed.

Lemma runAll_sameView cs : ∀ s1 s2,
  reachable s1 → reachable s2 → sameView s1 s2 →
  reachable (runAll cs s1) ∧ reachable (runAll cs s2) ∧
  sameView (runAll cs s1) (runAll cs s2).
Proof.
  induction cs as [|c cs IH]; intros s1 s2 Hr1 Hr2 Hview; [auto|].
  cbn. apply IH; try (constructor; assumption).
  apply run_sameView; assumption.
Qed.

Lemma reachable_reset s : reachable s → reachable (snd (reset s)).
Proof. intros Hr. apply (reach_step s CallReset Hr). Qed.

Lemma reachable_setLogLevel ns level s :
  reachable s → reachable (snd (setLogLevel ns level s)).
Proof.
  intros Hr. pose proof (reach_step s (CallSetLogLevel ns level) Hr) as H.
  rewrite run_snd in H. exact H.
Qed.

(** X15. What an assignment does to the tree, path by path: after any
    sequence of calls and for a valid namespace, after [setLogLevel] the
    node of the namespace has the level in the slot the call selects and
    its other slot as before (null if the node is new); every path on
    the way to it has a node, with both slots null if it had none; and
    every other path has the node and the slots it had, or none. *)
Theorem assignment_on_the_view cs ns level parts isWildcard path :
  namespaceParts ns true = inr (parts, isWildcard) →
  levelsAt (snd (setLogLevel ns level (runAll cs initial))) path
  = assignView parts isWildcard level (levelsAt (runAll cs initial)) path.
Proof.
  intros Hp. apply setLogLevel_levelsAt; [|exact Hp].
  apply reachable_tree, reachable_runAll. constructor.
Qed.

Lemma assignment_on_the_view_witness :
  levelsAt (snd (setLogLevel (NsString "a:b:*") DEBUG (runAll [] initial)))
    ["a"]
  = assignView ["a"; "b"] true DEBUG (levelsAt (runAll [] initial)) ["a"].
Proof.
  apply (assignment_on_the_view [] (NsString "a:b:*") DEBUG ["a"; "b"] true).
  reflexivity.
Defined.

Lemma runAll_results_sameView cs c s1 s2 :
  reachable s1 → reachable s2 → sameView s1 s2 →
  fst (run c (runAll cs s1)) = fst (run c (runAll cs s2)).
Proof.
  intros Hr1 Hr2 Hview.
  destruct (runAll_sameView cs s1 s2 Hr1 Hr2 Hview) as (Hr1' & Hr2' & Hview').
  apply run_sameView; assumption.
Qed.

(** X16. The answers depend on the levels per path only: if after two
    sequences of calls every path has the same level slots in both
    stores, then every later sequence of calls gets the same answers and
    the same errors from both, whatever objects the stores hold. *)
Theorem same_view_same_behaviour cs1 cs2 cs c :
  sameView (runAll cs1 initial) (runAll cs2 initial) →
  fst (run c (runAll cs (runAll cs1 initial)))
  = fst (run c (runAll cs (runAll cs2 initial))).
Proof.
  apply runAll_results_sameView; apply reachable_runAll; constructor.
Qed.

Lemma same_view_same_behaviour_witness :
  fst (run (CallShouldLog DEBUG (NsString "a:b"))
         (runAll [CallSetLogLevel (NsString "a:*") DEBUG]
            (runAll [] initial)))
  = fst (run (CallShouldLog DEBUG (NsString "a:b"))
           (runAll [CallSetLogLevel (NsString "a:*") DEBUG]
              (runAll [CallReset] initial))).
Proof.
  apply (same_view_same_behaviour [] [CallReset]).
  intros path.
  change (runAll [] initial) with (snd (reset (mkStore ∅ 0%nat))).
  change (runAll [CallReset] initial) with (snd (reset initial)).
  rewrite !levelsAt_reset. reflexivity.
Defined.

(** X17. After [reset] the module is as freshly loaded, for good: after
    any sequence of calls followed by [reset()], every later sequence of
    calls gets the answers and the errors it gets on the initial tree. *)
Theorem reset_is_a_fresh_start cs0 cs c :
  fst (run c (runAll cs (snd (reset (runAll cs0 initial)))))
  = fst (run c (runAll cs initial)).
Proof.
  apply runAll_results_sameView.
  - apply reachable_reset, reachable_runAll. constructor.
  - constructor.
  - intros path.
    change initial with (snd (reset (mkStore ∅ 0%nat))).
    rewrite !levelsAt_reset. reflexivity.
Qed.

Lemma assignView_comm parts1 w1 level1 parts2 w2 level2 view path :
  (parts1, w1) ≠ (parts2, w2) →
  assignView parts1 w1 level1 (assignView parts2 w2 level2 view) path
  = assignView parts2 w2 level2 (assignView parts1 w1 level1 view) path.
Proof.
  intros Hne. unfold assignView.
  destruct (view path) as [[e c]|];
    repeat case_decide; subst; try congruence;
    destruct w1, w2; cbn; try reflexivity; congruence.
Qed.

Lemma assignView_ext parts w level view1 view2 path :
  view1 path = view2 path →
  assignView parts w level view1 path = assignView parts w level view2 path.
Proof. unfold assignView. intros ->. reflexivity. Qed.

(** X18. Assignments to different slots commute: after any sequence of
    calls, two valid [setLogLevel] calls that differ in their parts or
    in being wildcard or exact can be made in either order; every later
    sequence of calls gets the same answers and errors. *)
Theorem assignments_commute
    cs0 ns1 level1 parts1 w1 ns2 level2 parts2 w2 cs c :
  namespaceParts ns1 true = inr (parts1, w1) →
  namespaceParts ns2 true = inr (parts2, w2) →
  (parts1, w1) ≠ (parts2, w2) →
  fst (run c (runAll cs
         (snd (setLogLevel ns2 level2
                 (snd (setLogLevel ns1 level1 (runAll cs0 initial)))))))
  = fst (run c (runAll cs
           (snd (setLogLevel ns1 level1
                   (snd (setLogLevel ns2 level2 (runAll cs0 initial))))))).
Proof.
  intros Hp1 Hp2 Hne. set (s := runAll cs0 initial).
  assert (reachable s) as Hr by (apply reachable_runAll; constructor).
  apply runAll_results_sameView;
    try (apply reachable_setLogLevel, reachable_setLogLevel, Hr).
  intros path.
  rewrite (setLogLevel_levelsAt _ _ _ _ _ _
             (reachable_tree _ (reachable_setLogLevel ns1 level1 s Hr)) Hp2).
  rewrite (setLogLevel_levelsAt _ _ _ _ _ _
             (reachable_tree _ (reachable_setLogLevel ns2 level2 s Hr)) Hp1).
  rewrite (assignView_ext _ _ _ _
             (assignView parts1 w1 level1 (levelsAt s)) path
             (setLogLevel_levelsAt _ _ _ _ s _ (reachable_tree _ Hr) Hp1)).
  rewrite (assignView_ext parts1 _ _ _
             (assignView parts2 w2 level2 (levelsAt s)) path
             (setLogLevel_levelsAt _ _ _ _ s _ (reachable_tree _ Hr) Hp2)).
  symmetry. apply assignView_comm. exact Hne.
Qed.

Lemma assignments_commute_witness :
  fst (run (CallShouldLog DEBUG (NsString "a:b")) (runAll []
         (snd (setLogLevel (NsString "a:b") DEBUG
                 (snd (setLogLevel (NsString "a:*") ERROR
                         (runAll [] initial)))))))
  = fst (run (CallShouldLog DEBUG (NsString "a:b")) (runAll []
           (snd (setLogLevel (NsString "a:*") ERROR
                   (snd (setLogLevel (NsString "a:b") DEBUG
                           (runAll [] initial))))))).
Proof.
  apply (assignments_commute [] (NsString "a:*") ERROR ["a"] true
           (NsString "a:b") DEBUG ["a"; "b"] false);
    [reflexivity|reflexivity|discriminate].
Defined.

(** ** The logger *)

Lemma scopedLog_shouldLog {any : Type} ns m (params : list any) s :
  scopedLog ns m params s
  = match shouldLog (methodLevel m) ns s with
    | (inr true, s') =>
        (inr [mkOutputCall ConsoleOutputter (methodLevel m)
                (scopedLogMessage ns) params], s')
    | (inr false, s') => (inr [], s')
    | (inl e, s') => (inl e, s')
    end.
Proof.
  unfold scopedLog, logToOutputters. unfold mbind, M_bind, bind.
  destruct (shouldLog (methodLevel m) ns s) as [[e|[|]] s']; reflexivity.
Qed.

Lemma scopedLog_level {any : Type} ns m (params : list any) s level :
  shouldLog (methodLevel m) ns s = (inr (level_le (methodLevel m) level), s) →
  scopedLog ns m params s = (inr (emitted ns m params level), s).
Proof.
  intros H. rewrite scopedLog_shouldLog, H. unfold emitted.
  destruct (level_le (methodLevel m) level); reflexivity.
Qed.

(** X19. What a logger call does: in a well-formed store, a call of any
    member of [scopedLog(ns)] throws the validation error of the parser
    if the namespace is not valid for a lookup; otherwise it calls the
    console outputter exactly once if the level of the member is at most
    the level the tree resolves for the namespace, and not at all if it
    is not; the call carries the level of the member, the namespace in
    brackets (nothing for the root namespace) and the parameters as
    given; the store is left as it was in every case. *)
Theorem logger_call_follows_effective_level
    {any : Type} ns m (params : list any) s :
  wf s →
  match namespaceParts ns false with
  | inl e => scopedLog ns m params s = (inl e, s)
  | inr (parts, _) =>
      ∃ level, effectiveLevel s parts = Some level ∧
               scopedLog ns m params s = (inr (emitted ns m params level), s)
  end.
Proof.
  intros Hwf. destruct (namespaceParts ns false) as [e|[parts w]] eqn:Hp.
  - rewrite scopedLog_shouldLog, (shouldLog_invalid _ _ _ _ Hp). reflexivity.
  - destruct (wf_effectiveLevel ns parts w s Hwf Hp) as [level Hlevel].
    exists level. split; [exact Hlevel|].
    apply scopedLog_level.
    destruct Hwf as [(root & Hroot & _) Hclosed].
    rewrite (shouldLog_effectiveLevel _ ns parts w s Hclosed
               (mk_is_Some _ _ Hroot) Hp), Hlevel.
    reflexivity.
Qed.

Lemma logger_call_follows_effective_level_witness :
  ∃ level, effectiveLevel initial ["db"] = Some level ∧
           scopedLog (NsString "db") CallWarn [1%nat; 2%nat] initial
           = (inr (emitted (NsString "db") CallWarn [1%nat; 2%nat] level),
              initial).
Proof.
  exact (logger_call_follows_effective_level (NsString "db") CallWarn
           [1%nat; 2%nat] initial initial_wf).
Defined.

(** X20. A logger made for a wildcard namespace throws on every call:
    [scopedLog] itself checks nothing, and for a namespace that
    [setLogLevel] accepts as a wildcard, every member of the logger
    throws the wildcard validation error, in any store, outputs nothing
    and leaves the store as it was. *)
Theorem wildcard_logger_always_throws
    {any : Type} ns parts m (params : list any) s :
  namespaceParts (NsString ns) true = inr (parts, true) →
  scopedLog (NsString ns) m params s = (inl (TrailingWildcard ns), s).
Proof.
  intros Hp. rewrite scopedLog_shouldLog.
  rewrite (shouldLog_invalid _ _ (TrailingWildcard ns)); [reflexivity|].
  rewrite namespaceParts_modes, Hp. reflexivity.
Qed.

Lemma wildcard_logger_always_throws_witness :
  scopedLog (NsString "db:*") CallError [0%nat] initial
  = (inl (TrailingWildcard "db:*"), initial).
Proof.
  apply (wildcard_logger_always_throws "db:*" ["db"]). reflexivity.
Defined.

(** X21. A logger after an assignment to its namespace: in a
    well-formed store, for every namespace a lookup accepts, after
    [setLogLevel(ns, level)] a call of a member of [scopedLog(ns)] is
    output exactly when the level of the member is at most [level],
    whatever the tree held before. *)
Theorem logger_follows_assigned_level
    {any : Type} ns parts w level m (params : list any) s :
  wf s → namespaceParts ns false = inr (parts, w) →
  ∃ s', setLogLevel ns level s = (inr tt, s') ∧
        scopedLog ns m params s' = (inr (emitted ns m params level), s').
Proof.
  intros Hwf Hp.
  destruct (namespaceParts_lookup_assign _ _ _ Hp) as [-> Hp'].
  destruct (setLogLevel_spec _ level _ _ s Hwf Hp')
    as (s' & r & n & Hset & Hat & Hn & Hslot & _).
  exists s'. split; [exact Hset|].
  apply scopedLog_level.
  eapply shouldLog_at; [exact Hp|exact Hat|exact Hn|].
  cbn [slot] in Hslot. rewrite Hslot. reflexivity.
Qed.

Lemma logger_follows_assigned_level_witness :
  ∃ s', setLogLevel (NsString "db") WARN initial = (inr tt, s') ∧
        scopedLog (NsString "db") CallInfo [7%nat] s'
        = (inr (emitted (NsString "db") CallInfo [7%nat] WARN), s').
Proof.
  exact (logger_follows_assigned_level (NsString "db") ["db"] false WARN
           CallInfo [7%nat] initial initial_wf eq_refl).
Defined.

(** X22. A logger on the default tree: on the initial tree and after
    any [reset], for every valid namespace, a call of a member is output
    exactly when the level of the member is at most DEFAULT_ROOT_LEVEL. *)
Theorem logger_on_default_tree
    {any : Type} ns parts w m (params : list any) s :
  namespaceParts ns false = inr (parts, w) →
  scopedLog ns m params initial
  = (inr (emitted ns m params DEFAULT_ROOT_LEVEL), initial) ∧
  scopedLog ns m params (snd (reset s))
  = (inr (emitted ns m params DEFAULT_ROOT_LEVEL), snd (reset s)).
Proof.
  intros Hp.
  assert (∀ s0, heap s0 !! _namespaces s0
                = Some (mkNode ROOT_NAMESPACE_KEY ∅ None
                          (Some DEFAULT_ROOT_LEVEL)) →
                scopedLog ns m params s0
                = (inr (emitted ns m params DEFAULT_ROOT_LEVEL), s0)) as H.
  { intros s0 Hroot. apply scopedLog_level.
    pose proof (shouldLog_fresh_root (methodLevel m) ns s0 Hroot) as Hfst.
    pose proof (shouldLog_readonly (methodLevel m) ns s0) as Hsnd.
    rewrite Hp in Hfst.
    destruct (shouldLog (methodLevel m) ns s0) as [r s1]. cbn in *.
    subst. reflexivity. }
  split; apply H; [apply (reset_root (mkStore ∅ 0%nat))|apply reset_root].
Qed.

Lemma logger_on_default_tree_witness :
  scopedLog (NsString "db") CallBase [3%nat] initial
  = (inr (emitted (NsString "db") CallBase [3%nat] DEFAULT_ROOT_LEVEL),
     initial) ∧
  scopedLog (NsString "db") CallBase [3%nat] (snd (reset initial))
  = (inr (emitted (NsString "db") CallBase [3%nat] DEFAULT_ROOT_LEVEL),
     snd (reset initial)).
Proof.
  exact (logger_on_default_tree (NsString "db") ["db"] false CallBase
           [3%nat] initial eq_refl).
Defined.

(** ** The walk and the spellings of the root *)

Lemma findLoop_contract s parts :
  closed (heap s) →
  ∀ cur visited above,
    nodeAtPath s above = Some cur → is_Some (heap s !! cur) →
    length visited = length above →
    (∀ i : nat, (i ≤ length above)%nat →
          (cur :: visited) !! (length above - i)
          = nodeAtPath s (take i above)) →
    ∃ nodes consumed remaining,
      findLoop cur (cur :: visited) parts s = (inr (nodes, remaining), s) ∧
      parts = consumed ++ remaining ∧
      length nodes = S (length (above ++ consumed)) ∧
      (∀ i : nat, (i ≤ length (above ++ consumed))%nat →
            nodes !! (length (above ++ consumed) - i)
            = nodeAtPath s (take i (above ++ consumed))) ∧
      (∀ part rest, remaining = part :: rest →
                    nodeAtPath s ((above ++ consumed) ++ [part]) = None).
Proof.
  intros Hclosed. induction parts as [|part rest IH];
    intros cur visited above Habove [n Hn] Hlen Hidx.
  - exists (cur :: visited), [], []. rewrite !(app_nil_r above). cbn.
    repeat split; [lia|exact Hidx|discriminate].
  - cbn [findLoop]. unfold_M. rewrite Hn.
    assert (nodeAtPath s (above ++ [part]) = children n !! part) as Hnext.
    { unfold nodeAtPath in *. rewrite nodeAt_app, Habove. cbn. rewrite Hn.
      destruct (children n !! part); reflexivity. }
    destruct (children n !! part) as [c|] eqn:Hc.
    + destruct (IH c (cur :: visited) (above ++ [part]) Hnext
                  (Hclosed _ _ _ _ Hn Hc))
        as (nodes & consumed & remaining & Hrun & Hparts & Hl & Hi & Hmiss).
      { rewrite length_app. cbn. lia. }
      { intros i Hi. rewrite length_app in *. cbn [length] in *.
        destruct (decide (i = length above + 1)) as [->|Hne].
        - rewrite Nat.sub_diag, take_ge by (rewrite length_app; cbn; lia).
          cbn. symmetry. exact Hnext.
        - replace (length above + 1 - i) with (S (length above - i)) by lia.
          rewrite take_app_le by lia. cbn [lookup list_lookup].
          apply (Hidx i). lia. }
      exists nodes, (part :: consumed), remaining.
      rewrite <- app_assoc in Hl, Hi, Hmiss. cbn [app] in Hl, Hi, Hmiss.
      repeat split; try assumption. cbn. congruence.
    + exists (cur :: visited), [], (part :: rest). rewrite !(app_nil_r above).
      cbn. repeat split; [lia|exact Hidx|].
      intros ? ? [= <- <-]. exact Hnext.
Qed.

(** X23. The contract of the walk: after any sequence of calls,
    [findNearestNode] returns, leaves the store as it is, and splits the
    parts into those that have nodes and those that remain; the visited
    list holds exactly the nodes of the prefixes of the consumed parts,
    nearest first and the root last, and the first remaining part has
    no node below the nearest node. *)
Theorem findNearestNode_contract cs parts :
  ∃ nodes consumed remaining,
    findNearestNode parts (runAll cs initial)
      = (inr (nodes, remaining), runAll cs initial) ∧
    parts = consumed ++ remaining ∧
    length nodes = S (length consumed) ∧
    last nodes = Some (_namespaces (runAll cs initial)) ∧
    (∀ i : nat, (i ≤ length consumed)%nat →
          nodes !! (length consumed - i)
          = nodeAtPath (runAll cs initial) (take i consumed)) ∧
    (∀ part rest, remaining = part :: rest →
                  nodeAtPath (runAll cs initial) (consumed ++ [part]) = None).
Proof.
  set (s := runAll cs initial).
  destruct (reachable_tree s (reachable_runAll cs _ reach_initial))
    as (Hclosed & Hroot & _).
  destruct (findLoop_contract s parts Hclosed (_namespaces s) [] []
              eq_refl Hroot eq_refl)
    as (nodes & consumed & remaining & Hrun & Hparts & Hl & Hi & Hmiss).
  { intros i Hi. cbn in *. replace i with 0%nat by lia. reflexivity. }
  cbn [app] in *. exists nodes, consumed, remaining.
  repeat split; try assumption.
  rewrite last_lookup, Hl. cbn [pred].
  rewrite <- (Nat.sub_0_r (length consumed)).
  rewrite (Hi 0%nat) by lia. reflexivity.
Qed.

(** X24. The spellings of the root: the symbol [RootNamespace], the
    empty string and the root key ["$"] are one namespace to
    [shouldLog] and to [setLogLevel], in every store; and ["*"] and
    ["$:*"] are one wildcard namespace, which writes the cascading slot
    of the root. *)
Theorem root_spellings_agree level s :
  shouldLog level (NsString "") s = shouldLog level RootNamespace s ∧
  shouldLog level (NsString ROOT_NAMESPACE_KEY) s
    = shouldLog level RootNamespace s ∧
  setLogLevel (NsString "") level s = setLogLevel RootNamespace level s ∧
  setLogLevel (NsString ROOT_NAMESPACE_KEY) level s
    = setLogLevel RootNamespace level s ∧
  setLogLevel (NsString "$:*") level s = setLogLevel (NsString "*") level s ∧
  setLogLevel (NsString "*") level s
    = setLevel true level (_namespaces s) s.
Proof. repeat split. Qed.
